(** * pcset.py: pitch-class sets

    A shallow embedding of the [PCSet] class of [pcset.py] and the
    properties its specification states about it.

    - A Python [set] of integers is a [gset Z]; Python integers are
      unbounded, so they are [Z], and [%] with the positive divisor 12 is
      [Z.modulo].
    - The order in which [for pc in self._pcs] yields the elements is left
      open by the language.  Code that iterates over a set is therefore
      written over the yielded sequence, and the theorems hold for every
      sequence that enumerates the set ([iterates]).
    - Exceptions are values of [exception]; a computation that may raise
      returns a [result].
    - Instances are mutable objects.  Methods that mutate their receiver or
      create an instance run in [M], a state and exception monad over the
      object store. *)

From Stdlib Require Import ZArith Lia List Permutation Sorted Ascii.
From stdpp Require Import base tactics option list sorting numbers strings pretty gmap sets fin_sets.

Local Open Scope Z_scope.

(** ** Exceptions and results *)

Inductive exception : Type :=
  | ValueError (msg : string)
  | IndexError (msg : string)
  | KeyError (key : Z)
  | AttributeError (msg : string).

Definition result (A : Type) : Type := exception + A.

Definition ok {A} (a : A) : result A := inr a.
Definition raise {A} (e : exception) : result A := inl e.

Definition rbind {A B} (r : result A) (k : A → result B) : result B :=
  match r with
  | inl e => inl e
  | inr a => k a
  end.

Declare Scope result_scope.
Delimit Scope result_scope with result.
Bind Scope result_scope with result.
Notation "'let*' x ':=' r 'in' k" := (rbind r (λ x, k))
  (at level 10, x name, r at level 100, k at level 200,
   only parsing) : result_scope.

(** ** Python built-ins used by the class *)

Module Py.

(** [sorted(iterable)] on integers. *)
Definition sorted (l : list Z) : list Z := merge_sort Z.le l.

(** [sum(iterable)]: starts at 0 and adds from the left. *)
Definition sum (l : list Z) : Z := foldl Z.add 0 l.

(** [1 << k]; every shift amount in the class is a residue modulo 12. *)
Definition shl1 (k : Z) : Z := Z.shiftl 1 k.

(** [min(list)]: raises on the empty list. *)
Definition min (l : list Z) : result Z :=
  match l with
  | [] => raise (ValueError "min() arg is an empty sequence")
  | x :: t => ok (foldl Z.min x t)
  end.

(** [list.index(x)]: position of the first occurrence, raises when absent. *)
Fixpoint index (x : Z) (l : list Z) : result Z :=
  match l with
  | [] => raise (ValueError "x not in list")
  | y :: t => if decide (y = x) then ok 0 else rbind (index x t) (λ i, ok (i + 1))
  end.

(** Position denoted by a subscript [i] of a sequence of length [n]:
    a negative subscript counts from the end. *)
Definition norm_index (n i : Z) : Z := if decide (i < 0) then i + n else i.

(** [l[i]]: raises when out of range. *)
Definition getitem {A} (l : list A) (i : Z) : result A :=
  let j := norm_index (Z.of_nat (length l)) i in
  if decide (0 ≤ j) then
    match l !! Z.to_nat j with
    | Some a => ok a
    | None => raise (IndexError "list index out of range")
    end
  else raise (IndexError "list index out of range").

(** [l[i] += 1]. *)
Definition incr_item (l : list Z) (i : Z) : result (list Z) :=
  rbind (getitem l i) (λ v,
    ok (<[Z.to_nat (norm_index (Z.of_nat (length l)) i) := v + 1]> l)).

(** Slice bounds are clamped to the sequence. *)
Definition clamp (n i : Z) : nat :=
  Z.to_nat (Z.min n (Z.max 0 (norm_index n i))).

(** [l[i:]] and [l[:i]]. *)
Definition slice_from {A} (l : list A) (i : Z) : list A :=
  drop (clamp (Z.of_nat (length l)) i) l.
Definition slice_to {A} (l : list A) (i : Z) : list A :=
  take (clamp (Z.of_nat (length l)) i) l.

(** [itertools.combinations(iterable, 2)]: the pairs of positions [i < j],
    in lexicographic order of the positions. *)
Fixpoint combinations2 {A} (l : list A) : list (A * A) :=
  match l with
  | [] => []
  | x :: t => (pair x <$> t) ++ combinations2 t
  end.

(** A loop [for x in l: acc = body(acc, x)] whose body may raise. *)
Fixpoint for_each {A S} (body : S → A → result S) (acc : S) (l : list A) : result S :=
  match l with
  | [] => ok acc
  | x :: t => rbind (body acc x) (λ acc', for_each body acc' t)
  end.

(** A comprehension [[f(x) for x in l]] whose element expression may raise. *)
Fixpoint comprehension {A B} (f : A → result B) (l : list A) : result (list B) :=
  match l with
  | [] => ok []
  | x :: t => rbind (f x) (λ y, rbind (comprehension f t) (λ ys, ok (y :: ys)))
  end.

(** [for x in s]: the set yields each of its elements exactly once. *)
Definition iterates (s : gset Z) (l : list Z) : Prop := l ≡ₚ elements s.

(** [str(n)] of an integer: its decimal numeral, with a minus sign when
    negative. *)
Definition str (n : Z) : string := pretty n.

(** [sep.join(strings)]. *)
Definition join (sep : string) (l : list string) : string := String.concat sep l.

End Py.

(** ** The object store *)

(** Instances are identified by a reference; the store holds, for every
    instance whose [_pcs] attribute has been assigned, the set it is bound
    to.  Every assignment to [_pcs] in the class binds a set built on the
    spot, so no two instances share a set object and the set can be stored
    by value. *)

Definition loc : Type := positive.

Record obj : Type := Obj { _pcs : gset Z }.

Abbreviation store := (gmap loc obj).

Definition M (A : Type) : Type := store → result A * store.

Definition ret {A} (a : A) : M A := λ h, (ok a, h).
Definition lift {A} (r : result A) : M A := λ h, (r, h).

(** An exception leaves the store as it is at the point of the raise. *)
Definition bind {A B} (m : M A) (k : A → M B) : M B :=
  λ h, match m h with
       | (inl e, h') => (inl e, h')
       | (inr a, h') => k a h'
       end.

Declare Scope store_scope.
Delimit Scope store_scope with M.
Bind Scope store_scope with M.
Notation "'let*' x ':=' m 'in' k" := (bind m (λ x, k))
  (at level 10, x name, m at level 100, k at level 200,
   only parsing) : store_scope.

(** [try: m  except KeyError: handler]. *)
Definition try_except_KeyError {A} (m : M A) (handler : M A) : M A :=
  λ h, match m h with
       | (inl (KeyError _), h') => handler h'
       | r => r
       end.

(** [self._pcs] read, and [self._pcs = s]. *)
Definition getattr_pcs (self : loc) : M (gset Z) :=
  λ h, match h !! self with
       | Some o => (ok (_pcs o), h)
       | None => (raise (AttributeError "'PCSet' object has no attribute '_pcs'"), h)
       end.

Definition setattr_pcs (self : loc) (s : gset Z) : M unit :=
  λ h, (ok tt, <[self := Obj s]> h).

(** Allocation of an instance: a reference no live instance has. *)
Definition alloc : M loc := λ h, (ok (fresh (dom h)), h).

(** [s.remove(x)] on a set: raises [KeyError] when [x] is absent. *)
Definition set_remove (s : gset Z) (x : Z) : result (gset Z) :=
  if decide (x ∈ s) then ok (s ∖ {[x]}) else raise (KeyError x).

(** ** The class *)

Module PCSet.

(** *** Helper functions (private static methods) *)

Definition invalid_pitch_class : exception :=
  ValueError "pitch class, interval, or index number must be 0-11".

Definition _check_n (n : Z) : result Z :=
  if decide (0 ≤ n ≤ 11) then ok n else raise invalid_pitch_class.

Definition _rotate_list {A} (input_list : list A) (front_index : Z) : list A :=
  Py.slice_from input_list front_index ++ Py.slice_to input_list front_index.

(** *** Magic methods *)

(** [self._pcs = {PCSet._check_n(pc) for pc in pcs}] *)
Definition __init__ (self : loc) (pcs : list Z) : M unit :=
  (let* checked := lift (Py.comprehension _check_n pcs) in
   setattr_pcs self (list_to_set checked))%M.

(** The call [PCSet(pc, ...)]: allocation, then [__init__]. *)
Definition new (pcs : list Z) : M loc :=
  (let* self := alloc in
   let* _ := __init__ self pcs in
   ret self)%M.

Definition __len__ (self : loc) : M Z :=
  (let* s := getattr_pcs self in ret (Z.of_nat (size s)))%M.

(** *** Const methods (properties)

    [it] is the sequence [for pc in self._pcs] yields. *)

Definition normal_order (it : list Z) : result (list Z) :=
  let sorted_pcs := Py.sorted it in
  let scores :=
    (λ pc_a, Py.sum ((λ pc_b, Py.shl1 ((pc_b - pc_a) mod 12)) <$> sorted_pcs))
      <$> sorted_pcs in
  (let* m := Py.min scores in
   let* min_index := Py.index m scores in
   ok (_rotate_list sorted_pcs min_index))%result.

(** ['PCSet: {}{}{}'.format('{', ', '.join(str(pc) for pc in
    self.normal_order), '}')] *)
Definition __str__ (it : list Z) : result string :=
  (let* no := normal_order it in
   ok ("PCSet: " +:+ "{" +:+ Py.join ", " (Py.str <$> no) +:+ "}"))%result.

Definition __repr__ (it : list Z) : result string := __str__ it.

(** [inverted_pcs = {-pc % 12 for pc in self._pcs}] *)
Definition inverted_pcs (s : gset Z) : gset Z := set_map (λ pc, (- pc) mod 12) s.

(** [it_inv] is the sequence [for pc in inverted_pcs] yields. *)
Definition prime_form (it it_inv : list Z) : result (list Z) :=
  let transpositions :=
    (λ pc_a, Py.sorted ((λ pc_b, (pc_b - pc_a) mod 12) <$> it)) <$> it in
  let inversions :=
    (λ pc_a, Py.sorted ((λ pc_b, (pc_b - pc_a) mod 12) <$> it_inv)) <$> it_inv in
  let t_scores := (λ lst, Py.sum (Py.shl1 <$> lst)) <$> transpositions in
  let i_scores := (λ lst, Py.sum (Py.shl1 <$> lst)) <$> inversions in
  (let* min_t := Py.min t_scores in
   let* min_i := Py.min i_scores in
   if decide (min_t ≤ min_i) then
     let* i := Py.index min_t t_scores in Py.getitem transpositions i
   else
     let* i := Py.index min_i i_scores in Py.getitem inversions i)%result.

Definition interval_class_vector (it : list Z) : result (list Z) :=
  Py.for_each
    (λ result '(pc_a, pc_b),
       let pc_ivl := (pc_b - pc_a) mod 12 in
       let pc_ivl := if decide (pc_ivl > 6) then (- pc_ivl) mod 12 else pc_ivl in
       Py.incr_item result (pc_ivl - 1))
    (replicate 6 0) (Py.combinations2 it).

(** *** Non-const methods *)

(** [self._pcs.add(PCSet._check_n(pc))]: the receiver's set is looked up,
    the argument validated, then the set mutated in place. *)
Definition add_pc (self : loc) (pc : Z) : M unit :=
  (let* s := getattr_pcs self in
   let* v := lift (_check_n pc) in
   setattr_pcs self ({[v]} ∪ s))%M.

Definition remove_pc (self : loc) (pc : Z) : M unit :=
  try_except_KeyError
    (let* s := getattr_pcs self in
     let* s' := lift (set_remove s pc) in
     setattr_pcs self s')%M
    (ret tt).

Definition t_n (self : loc) (n : Z) : M unit :=
  (let* _ := lift (_check_n n) in
   let* s := getattr_pcs self in
   setattr_pcs self (set_map (λ pc, (pc + n) mod 12) s))%M.

Definition i_n (self : loc) (n : Z) : M unit :=
  (let* _ := lift (_check_n n) in
   let* s := getattr_pcs self in
   setattr_pcs self (set_map (λ pc, (n - pc) mod 12) s))%M.

(** *** Set methods *)

Definition issubset (self other : loc) : M bool :=
  (let* a := getattr_pcs self in
   let* b := getattr_pcs other in
   ret (bool_decide (a ⊆ b)))%M.

Definition issuperset (self other : loc) : M bool :=
  (let* a := getattr_pcs self in
   let* b := getattr_pcs other in
   ret (bool_decide (b ⊆ a)))%M.

Definition difference (self other : loc) : M loc :=
  (let* result := new [] in
   let* a := getattr_pcs self in
   let* b := getattr_pcs other in
   let* _ := setattr_pcs result (a ∖ b) in
   ret result)%M.

Definition intersection (self other : loc) : M loc :=
  (let* result := new [] in
   let* a := getattr_pcs self in
   let* b := getattr_pcs other in
   let* _ := setattr_pcs result (a ∩ b) in
   ret result)%M.

Definition union (self other : loc) : M loc :=
  (let* result := new [] in
   let* a := getattr_pcs self in
   let* b := getattr_pcs other in
   let* _ := setattr_pcs result (a ∪ b) in
   ret result)%M.

End PCSet.

(** ** The range invariant *)

Definition in_range (n : Z) : Prop := 0 ≤ n ≤ 11.

Definition pcs_ok (s : gset Z) : Prop := set_Forall in_range s.

Definition store_ok (h : store) : Prop := map_Forall (λ _ o, pcs_ok (_pcs o)) h.

#[global] Instance in_range_dec n : Decision (in_range n).
Proof. unfold in_range. apply _. Defined.

(** ** Notions the specification is stated with *)

Module Spec.

(** score(a): the sum over all [b] of the set of [2^((b - a) mod 12)]. *)
Definition score (s : gset Z) (a : Z) : Z :=
  set_fold (λ b acc, 2 ^ ((b - a) mod 12) + acc) 0 s.

(** The candidate of a starting element [a]: the sorted list of
    [(b - a) mod 12] over all [b] of the collection. *)
Definition candidate (s : gset Z) (a : Z) : list Z :=
  Py.sorted ((λ b, (b - a) mod 12) <$> elements s).

(** The bit weight of a sequence: the sum of [2^value] over its elements. *)
Definition weight (c : list Z) : Z := foldr (λ v acc, 2 ^ v + acc) 0 c.

(** The interval class of two pitch classes: [min(ivl, 12 - ivl)]. *)
Definition interval_class (a b : Z) : Z :=
  Z.min ((b - a) mod 12) (12 - (b - a) mod 12).

(** The unordered pairs of distinct elements of [l], each once: the pairs
    [(a, b)] with [a < b]. *)
Definition unordered_pairs (l : list Z) : list (Z * Z) :=
  a ← l; pair a <$> filter (λ b, a < b) l.

(** The number of pairs of a list whose interval class is [c]. *)
Definition class_count (c : Z) (ps : list (Z * Z)) : Z :=
  Z.of_nat (length (filter (λ p, interval_class p.1 p.2 = c) ps)).

(** The number of unordered pairs of distinct elements of the set whose
    interval class is [c]. *)
Definition pairs_of_class (s : gset Z) (c : Z) : Z :=
  class_count c (unordered_pairs (elements s)).

(** The binomial coefficient C(k,2). *)
Definition choose2 (k : Z) : Z := k * (k - 1) / 2.

End Spec.

(** ** Sequences of calls *)

Inductive call : Type :=
  | Call_new (pcs : list Z)
  | Call_add_pc (self : loc) (pc : Z)
  | Call_remove_pc (self : loc) (pc : Z)
  | Call_t_n (self : loc) (n : Z)
  | Call_i_n (self : loc) (n : Z)
  | Call_union (self other : loc)
  | Call_intersection (self other : loc)
  | Call_difference (self other : loc).

(** The store a call leaves behind, whether it returns or raises. *)
Definition exec (c : call) (h : store) : store :=
  match c with
  | Call_new pcs => (PCSet.new pcs h).2
  | Call_add_pc self pc => (PCSet.add_pc self pc h).2
  | Call_remove_pc self pc => (PCSet.remove_pc self pc h).2
  | Call_t_n self n => (PCSet.t_n self n h).2
  | Call_i_n self n => (PCSet.i_n self n h).2
  | Call_union self other => (PCSet.union self other h).2
  | Call_intersection self other => (PCSet.intersection self other h).2
  | Call_difference self other => (PCSet.difference self other h).2
  end.

Definition exec_all (cs : list call) (h : store) : store :=
  foldl (λ h c, exec c h) h cs.

(** ** Abbreviations for the two comprehensions of [prime_form] *)

#[local] Abbreviation candidates l :=
  ((λ pc_a, Py.sorted ((λ pc_b, (pc_b - pc_a) mod 12) <$> l)) <$> l).

#[local] Abbreviation bit_score :=
  (λ lst : list Z, Py.sum (Py.shl1 <$> lst)).

(** ** Running the monad *)

Ltac run :=
  unfold PCSet.add_pc, PCSet.remove_pc, PCSet.t_n, PCSet.i_n, PCSet.new,
    PCSet.__init__, PCSet.union, PCSet.intersection, PCSet.difference,
    PCSet.issubset, PCSet.issuperset, try_except_KeyError,
    bind, lift, ret, alloc, getattr_pcs, setattr_pcs, ok, raise in *;
  simpl in *.

Lemma check_n_in n : in_range n → PCSet._check_n n = inr n.
Proof. intros Hn. unfold PCSet._check_n. by rewrite decide_True. Qed.

Lemma check_n_out n :
  ¬ in_range n → PCSet._check_n n = inl PCSet.invalid_pitch_class.
Proof. intros Hn. unfold PCSet._check_n. by rewrite decide_False. Qed.

Lemma comprehension_check_in pcs :
  Forall in_range pcs → Py.comprehension PCSet._check_n pcs = inr pcs.
Proof.
  induction 1 as [|pc pcs Hpc _ IH]; [done|].
  simpl. by rewrite check_n_in, IH.
Qed.

Lemma comprehension_check_out pcs :
  ¬ Forall in_range pcs →
  Py.comprehension PCSet._check_n pcs = inl PCSet.invalid_pitch_class.
Proof.
  induction pcs as [|pc pcs IH]; intros Hno.
  - destruct Hno. constructor.
  - simpl. destruct (decide (in_range pc)) as [Hpc|Hpc].
    + rewrite check_n_in by done. simpl. rewrite IH; [done|].
      intros Hall. apply Hno. by constructor.
    + by rewrite check_n_out.
Qed.

Lemma fresh_lookup (h : store) : h !! fresh (dom h) = None.
Proof. apply not_elem_of_dom, is_fresh. Qed.

Lemma obj_eta (o : obj) : Obj (_pcs o) = o.
Proof. by destruct o. Qed.

Lemma new_in pcs (h : store) :
  Forall in_range pcs →
  PCSet.new pcs h = (inr (fresh (dom h)), <[fresh (dom h) := Obj (list_to_set pcs)]> h).
Proof. intros Hall. run. by rewrite comprehension_check_in. Qed.

Lemma new_out pcs (h : store) :
  ¬ Forall in_range pcs →
  PCSet.new pcs h = (inl PCSet.invalid_pitch_class, h).
Proof. intros Hno. run. by rewrite comprehension_check_out. Qed.

Lemma pcs_ok_list_to_set pcs : Forall in_range pcs → pcs_ok (list_to_set pcs).
Proof.
  intros Hall x Hx. apply elem_of_list_to_set in Hx.
  by eapply Forall_forall in Hall.
Qed.

Lemma pcs_ok_set_map (f : Z → Z) (s : gset Z) :
  (∀ x, in_range (f x)) → pcs_ok (set_map f s).
Proof. intros Hf y Hy. apply elem_of_map in Hy as (x & -> & _). apply Hf. Qed.

Lemma mod12_in_range x : in_range (x mod 12).
Proof. unfold in_range. pose proof (Z.mod_pos_bound x 12). lia. Qed.

Lemma store_ok_insert (h : store) l s :
  store_ok h → pcs_ok s → store_ok (<[l := Obj s]> h).
Proof. intros Hh Hs. by apply map_Forall_insert_2. Qed.

(** ** Validation *)

(** C5: [_check_n] returns [n] for [n] in [0,11] and raises the
    invalid-pitch-class error otherwise; the constructor raises it exactly
    when some argument is out of range, and then no instance enters the
    store; [add_pc], [t_n] and [i_n] raise it exactly when [n] is out of
    range, and then the store, hence the receiver's set, is unchanged. *)
Theorem validation_before_mutation (h : store) (self : loc) (o : obj) (n : Z) (pcs : list Z) :
  h !! self = Some o →
  (in_range n → PCSet._check_n n = inr n) ∧
  (¬ in_range n → PCSet._check_n n = inl PCSet.invalid_pitch_class) ∧
  (Forall in_range pcs →
     ∃ r, h !! r = None ∧
          PCSet.new pcs h = (inr r, <[r := Obj (list_to_set pcs)]> h)) ∧
  (¬ Forall in_range pcs →
     PCSet.new pcs h = (inl PCSet.invalid_pitch_class, h)) ∧
  (in_range n →
     PCSet.add_pc self n h = (inr tt, <[self := Obj ({[n]} ∪ _pcs o)]> h) ∧
     PCSet.t_n self n h =
       (inr tt, <[self := Obj (set_map (λ pc, (pc + n) mod 12) (_pcs o))]> h) ∧
     PCSet.i_n self n h =
       (inr tt, <[self := Obj (set_map (λ pc, (n - pc) mod 12) (_pcs o))]> h)) ∧
  (¬ in_range n →
     PCSet.add_pc self n h = (inl PCSet.invalid_pitch_class, h) ∧
     PCSet.t_n self n h = (inl PCSet.invalid_pitch_class, h) ∧
     PCSet.i_n self n h = (inl PCSet.invalid_pitch_class, h)).
Proof.
  intros Hself. repeat split.
  - apply check_n_in.
  - apply check_n_out.
  - intros Hall. exists (fresh (dom h)). split; [apply fresh_lookup|by apply new_in].
  - apply new_out.
  - run. by rewrite Hself, check_n_in.
  - run. by rewrite check_n_in, Hself.
  - run. by rewrite check_n_in, Hself.
  - run. by rewrite Hself, check_n_out.
  - run. by rewrite check_n_out.
  - run. by rewrite check_n_out.
Qed.

Lemma validation_before_mutation_witness :
  PCSet.add_pc 1%positive 12 {[1%positive := Obj {[0; 4]}]}
    = (inl PCSet.invalid_pitch_class, {[1%positive := Obj {[0; 4]}]}) ∧
  PCSet.new [0; 4; 12] {[1%positive := Obj {[0; 4]}]}
    = (inl PCSet.invalid_pitch_class, {[1%positive := Obj {[0; 4]}]}).
Proof.
  pose proof (validation_before_mutation {[1%positive := Obj {[0; 4]}]} 1%positive
                (Obj {[0; 4]}) 12 [0; 4; 12] eq_refl) as (_ & _ & _ & Hnew & _ & Hout).
  split.
  - apply Hout. unfold in_range. lia.
  - apply Hnew. rewrite !Forall_cons. unfold in_range. lia.
Defined.

(** ** Removal *)

(** C10: [remove_pc(pc)] for an integer [pc] that is not a member, in
    range or not, returns normally and leaves the store unchanged. *)
Theorem remove_pc_absent (h : store) (self : loc) (o : obj) (pc : Z) :
  h !! self = Some o →
  pc ∉ _pcs o →
  PCSet.remove_pc self pc h = (inr tt, h).
Proof.
  intros Hself Hpc. run. rewrite Hself. unfold set_remove.
  by rewrite decide_False.
Qed.

Lemma remove_pc_absent_witness :
  PCSet.remove_pc 1%positive 17 {[1%positive := Obj {[0; 4]}]}
    = (inr tt, {[1%positive := Obj {[0; 4]}]}).
Proof.
  apply (remove_pc_absent {[1%positive := Obj {[0; 4]}]} 1%positive (Obj {[0; 4]}) 17).
  - reflexivity.
  - simpl. rewrite !elem_of_union, !elem_of_singleton. lia.
Defined.

(** ** Preservation of the range invariant *)

Lemma store_ok_lookup (h : store) l o : store_ok h → h !! l = Some o → pcs_ok (_pcs o).
Proof. intros Hh Hl. exact (Hh l o Hl). Qed.

Lemma store_ok_new (h : store) pcs : store_ok h → store_ok (PCSet.new pcs h).2.
Proof.
  intros Hh. destruct (decide (Forall in_range pcs)) as [Hall|Hno].
  - rewrite new_in by done. simpl.
    by apply store_ok_insert, pcs_ok_list_to_set.
  - by rewrite new_out.
Qed.

Lemma store_ok_binop (op : gset Z → gset Z → gset Z) (h : store) a b :
  (∀ s1 s2, pcs_ok s1 → pcs_ok s2 → pcs_ok (op s1 s2)) →
  store_ok h →
  store_ok
    ((let* result := PCSet.new [] in
      let* x := getattr_pcs a in
      let* y := getattr_pcs b in
      let* _ := setattr_pcs result (op x y) in
      ret result)%M h).2.
Proof.
  intros Hop Hh.
  assert (store_ok (<[fresh (dom h) := Obj ∅]> h)) as Hh'.
  { apply store_ok_insert; [done|]. intros x Hx. set_solver. }
  run. set (h' := <[fresh (dom h) := Obj ∅]> h) in *.
  destruct (h' !! a) as [oa|] eqn:Ha; simpl; [|done].
  destruct (h' !! b) as [ob|] eqn:Hb; simpl; [|done].
  apply store_ok_insert; [done|].
  apply Hop; eapply store_ok_lookup; eauto.
Qed.

Lemma store_ok_add_pc (h : store) self n : store_ok h → store_ok (PCSet.add_pc self n h).2.
Proof.
  intros Hh. run. destruct (h !! self) as [o|] eqn:Hself; simpl; [|done].
  unfold PCSet._check_n. case_decide; simpl; [|done].
  apply store_ok_insert; [done|]. intros x Hx.
  apply elem_of_union in Hx as [Hx|Hx].
  - apply elem_of_singleton in Hx. by subst.
  - by eapply store_ok_lookup.
Qed.

Lemma store_ok_remove_pc (h : store) self n :
  store_ok h → store_ok (PCSet.remove_pc self n h).2.
Proof.
  intros Hh. run. destruct (h !! self) as [o|] eqn:Hself; simpl; [|done].
  unfold set_remove. case_decide; simpl; [|done].
  apply store_ok_insert; [done|]. intros x Hx.
  apply elem_of_difference in Hx as [Hx _]. by eapply store_ok_lookup.
Qed.

Lemma store_ok_t_n (h : store) self n : store_ok h → store_ok (PCSet.t_n self n h).2.
Proof.
  intros Hh. run. unfold PCSet._check_n. case_decide; simpl; [|done].
  destruct (h !! self) as [o|] eqn:Hself; simpl; [|done].
  apply store_ok_insert; [done|]. apply pcs_ok_set_map. intros. apply mod12_in_range.
Qed.

Lemma store_ok_i_n (h : store) self n : store_ok h → store_ok (PCSet.i_n self n h).2.
Proof.
  intros Hh. run. unfold PCSet._check_n. case_decide; simpl; [|done].
  destruct (h !! self) as [o|] eqn:Hself; simpl; [|done].
  apply store_ok_insert; [done|]. apply pcs_ok_set_map. intros. apply mod12_in_range.
Qed.

Lemma store_ok_union (h : store) a b : store_ok h → store_ok (PCSet.union a b h).2.
Proof.
  apply (store_ok_binop (∪)).
  intros s1 s2 H1 H2 x Hx. apply elem_of_union in Hx as [Hx|Hx]; auto.
Qed.

Lemma store_ok_intersection (h : store) a b :
  store_ok h → store_ok (PCSet.intersection a b h).2.
Proof.
  apply (store_ok_binop (∩)).
  intros s1 s2 H1 H2 x Hx. apply elem_of_intersection in Hx as [Hx _]; auto.
Qed.

Lemma store_ok_difference (h : store) a b :
  store_ok h → store_ok (PCSet.difference a b h).2.
Proof.
  apply (store_ok_binop (λ s1 s2, s1 ∖ s2)).
  intros s1 s2 H1 H2 x Hx. apply elem_of_difference in Hx as [Hx _]; auto.
Qed.

Lemma store_ok_exec (c : call) (h : store) : store_ok h → store_ok (exec c h).
Proof.
  destruct c; simpl;
    auto using store_ok_new, store_ok_add_pc, store_ok_remove_pc, store_ok_t_n,
      store_ok_i_n, store_ok_union, store_ok_intersection, store_ok_difference.
Qed.

Lemma store_ok_exec_all (cs : list call) (h : store) :
  store_ok h → store_ok (exec_all cs h).
Proof.
  revert h. induction cs as [|c cs IH]; intros h Hh; [done|].
  simpl. by apply IH, store_ok_exec.
Qed.

(** C6: every stored element lies in [0,11]: the invariant holds for the
    instance a successful construction returns, and every operation,
    whatever its arguments and whether it raises or not, takes a store whose
    instances all satisfy it to such a store, hence so does every sequence
    of calls; an out-of-range argument of the constructor or of [add_pc]
    changes no set at all. *)
Theorem range_invariant (h : store) (self other : loc) (n : Z) (pcs : list Z) :
  store_ok h →
  (∀ r h', PCSet.new pcs h = (inr r, h') →
     ∃ o, h' !! r = Some o ∧ pcs_ok (_pcs o)) ∧
  store_ok (PCSet.new pcs h).2 ∧
  store_ok (PCSet.add_pc self n h).2 ∧
  store_ok (PCSet.remove_pc self n h).2 ∧
  store_ok (PCSet.t_n self n h).2 ∧
  store_ok (PCSet.i_n self n h).2 ∧
  store_ok (PCSet.union self other h).2 ∧
  store_ok (PCSet.intersection self other h).2 ∧
  store_ok (PCSet.difference self other h).2 ∧
  (¬ in_range n → (PCSet.add_pc self n h).2 = h) ∧
  (¬ Forall in_range pcs → (PCSet.new pcs h).2 = h) ∧
  (∀ cs, store_ok (exec_all cs h)).
Proof.
  intros Hh. split_and!; [..|intros cs; by apply store_ok_exec_all].
  - intros r h' Hnew. destruct (decide (Forall in_range pcs)) as [Hall|Hno].
    + rewrite new_in in Hnew by done. injection Hnew as <- <-.
      eexists. split; [apply lookup_insert_eq|]. by apply pcs_ok_list_to_set.
    + by rewrite new_out in Hnew.
  - by apply store_ok_new.
  - by apply store_ok_add_pc.
  - by apply store_ok_remove_pc.
  - by apply store_ok_t_n.
  - by apply store_ok_i_n.
  - by apply store_ok_union.
  - by apply store_ok_intersection.
  - by apply store_ok_difference.
  - intros Hn. run. destruct (h !! self) as [o|] eqn:Hself; simpl; [|done].
    by rewrite check_n_out.
  - intros Hno. by rewrite new_out.
Qed.

Lemma range_invariant_witness :
  store_ok (PCSet.t_n 1%positive 7 {[1%positive := Obj {[0; 4; 11]}]}).2.
Proof.
  refine (proj1 (proj2 (proj2 (proj2 (proj2
    (range_invariant {[1%positive := Obj {[0; 4; 11]}]} 1%positive 1%positive 7 [] _)))))).
  apply map_Forall_singleton. intros x Hx. simpl in Hx. unfold in_range.
  rewrite !elem_of_union, !elem_of_singleton in Hx. lia.
Defined.

(** ** Transposition and inversion are invertible *)

Lemma set_map_cancel (f g : Z → Z) (s : gset Z) :
  (∀ x, x ∈ s → g (f x) = x) → set_map g (set_map f s : gset Z) = s.
Proof.
  intros Hgf. apply set_eq. intros x. rewrite elem_of_map. split.
  - intros (y & -> & Hy). apply elem_of_map in Hy as (z & -> & Hz).
    by rewrite Hgf.
  - intros Hx. exists (f x). split; [by rewrite Hgf|].
    apply elem_of_map. eauto.
Qed.

Lemma transpose_back x n : in_range x → ((x + n) mod 12 + (12 - n) mod 12) mod 12 = x.
Proof.
  intros Hx. rewrite <- Zplus_mod.
  replace (x + n + (12 - n)) with (x + 1 * 12) by lia.
  rewrite Z_mod_plus_full. apply Z.mod_small. unfold in_range in Hx. lia.
Qed.

Lemma invert_back x n : in_range x → (n - (n - x) mod 12) mod 12 = x.
Proof.
  intros Hx. rewrite Zminus_mod_idemp_r.
  replace (n - (n - x)) with x by lia.
  apply Z.mod_small. unfold in_range in Hx. lia.
Qed.

(** C8: on an instance whose elements lie in [0,11], and for [n] in
    [0,11], [t_n(n)] followed by [t_n((12 - n) mod 12)] returns normally and
    restores the store, hence the element set; so does [i_n(n)] applied
    twice. *)
Theorem transpose_invert_roundtrip (h : store) (self : loc) (o : obj) (n : Z) :
  h !! self = Some o →
  pcs_ok (_pcs o) →
  in_range n →
  (let* _ := PCSet.t_n self n in PCSet.t_n self ((12 - n) mod 12))%M h = (inr tt, h) ∧
  (let* _ := PCSet.i_n self n in PCSet.i_n self n)%M h = (inr tt, h).
Proof.
  intros Hself Ho Hn. split; run.
  - rewrite check_n_in, Hself by done. simpl.
    rewrite check_n_in by apply mod12_in_range. simpl.
    rewrite lookup_insert_eq. simpl. rewrite insert_insert_eq.
    rewrite set_map_cancel; [by rewrite obj_eta, insert_id|].
    intros x Hx. apply transpose_back. by apply Ho.
  - rewrite check_n_in, Hself by done. simpl.
    rewrite lookup_insert_eq. simpl. rewrite insert_insert_eq.
    rewrite set_map_cancel; [by rewrite obj_eta, insert_id|].
    intros x Hx. apply invert_back. by apply Ho.
Qed.

Lemma transpose_invert_roundtrip_witness :
  (let* _ := PCSet.t_n 1%positive 5 in PCSet.t_n 1%positive ((12 - 5) mod 12))%M
    {[1%positive := Obj {[0; 4; 11]}]} = (inr tt, {[1%positive := Obj {[0; 4; 11]}]}).
Proof.
  refine (proj1 (transpose_invert_roundtrip {[1%positive := Obj {[0; 4; 11]}]}
                   1%positive (Obj {[0; 4; 11]}) 5 eq_refl _ _)).
  - intros x Hx. simpl in Hx. unfold in_range.
    rewrite !elem_of_union, !elem_of_singleton in Hx. lia.
  - unfold in_range. lia.
Defined.

(** ** Set algebra *)

Lemma binop_run (op : gset Z → gset Z → gset Z) (h : store) a b oa ob :
  h !! a = Some oa → h !! b = Some ob →
  (let* result := PCSet.new [] in
   let* x := getattr_pcs a in
   let* y := getattr_pcs b in
   let* _ := setattr_pcs result (op x y) in
   ret result)%M h
  = (inr (fresh (dom h)), <[fresh (dom h) := Obj (op (_pcs oa) (_pcs ob))]> h).
Proof.
  intros Ha Hb. pose proof (fresh_lookup h) as Hfresh. run.
  rewrite lookup_insert_ne, Ha by congruence. simpl.
  rewrite lookup_insert_ne, Hb by congruence. simpl.
  by rewrite insert_insert_eq.
Qed.

Lemma union_run (h : store) a b oa ob :
  h !! a = Some oa → h !! b = Some ob →
  PCSet.union a b h
  = (inr (fresh (dom h)), <[fresh (dom h) := Obj (_pcs oa ∪ _pcs ob)]> h).
Proof. apply (binop_run (∪)). Qed.

Lemma intersection_run (h : store) a b oa ob :
  h !! a = Some oa → h !! b = Some ob →
  PCSet.intersection a b h
  = (inr (fresh (dom h)), <[fresh (dom h) := Obj (_pcs oa ∩ _pcs ob)]> h).
Proof. apply (binop_run (∩)). Qed.

Lemma difference_run (h : store) a b oa ob :
  h !! a = Some oa → h !! b = Some ob →
  PCSet.difference a b h
  = (inr (fresh (dom h)), <[fresh (dom h) := Obj (_pcs oa ∖ _pcs ob)]> h).
Proof. apply (binop_run (λ s1 s2, s1 ∖ s2)). Qed.

(** C9: [union], [intersection] and [difference] return a reference that
    no instance of the store had, bound to the combined set, and change
    nothing else in the store, so both operands keep their element sets
    (also when the two operands are the same instance); the union is a
    superset of both operands, and the intersection of [A.difference(B)]
    with [B] is empty. *)
Theorem set_algebra_fresh_result (h : store) (a b : loc) (A B : obj) :
  h !! a = Some A →
  h !! b = Some B →
  ∃ r, h !! r = None ∧
    PCSet.union a b h = (inr r, <[r := Obj (_pcs A ∪ _pcs B)]> h) ∧
    PCSet.intersection a b h = (inr r, <[r := Obj (_pcs A ∩ _pcs B)]> h) ∧
    PCSet.difference a b h = (inr r, <[r := Obj (_pcs A ∖ _pcs B)]> h) ∧
    (∀ s, <[r := Obj s]> h !! a = Some A ∧ <[r := Obj s]> h !! b = Some B) ∧
    (let* u := PCSet.union a b in
     let* sup_a := PCSet.issuperset u a in
     let* sup_b := PCSet.issuperset u b in
     ret (sup_a, sup_b))%M h
      = (inr (true, true), <[r := Obj (_pcs A ∪ _pcs B)]> h) ∧
    ∃ r', (let* d := PCSet.difference a b in PCSet.intersection d b)%M h
            = (inr r', <[r' := Obj ∅]> (<[r := Obj (_pcs A ∖ _pcs B)]> h)) ∧
          r' ≠ r ∧ h !! r' = None.
Proof.
  intros Ha Hb. pose proof (fresh_lookup h) as Hfresh.
  set (r := fresh (dom h)) in *.
  assert (∀ s, <[r := Obj s]> h !! a = Some A ∧ <[r := Obj s]> h !! b = Some B) as Hkeep.
  { intros s. rewrite !lookup_insert_ne by congruence. done. }
  exists r. split_and!; [done| | | |done| |].
  - by apply union_run.
  - by apply intersection_run.
  - by apply difference_run.
  - unfold bind at 1. rewrite (union_run h a b A B) by done. fold r.
    destruct (Hkeep (_pcs A ∪ _pcs B)) as [Ha' Hb'].
    run. rewrite lookup_insert_eq. simpl. rewrite Ha'. simpl.
    rewrite lookup_insert_eq. simpl. rewrite Hb'. simpl.
    rewrite !bool_decide_true; [done| |]; intros x Hx; apply elem_of_union; auto.
  - unfold bind at 1. rewrite (difference_run h a b A B) by done. fold r.
    destruct (Hkeep (_pcs A ∖ _pcs B)) as [Ha' Hb'].
    set (h1 := <[r := Obj (_pcs A ∖ _pcs B)]> h) in *.
    exists (fresh (dom h1)).
    pose proof (fresh_lookup h1) as Hfresh1.
    split_and!.
    + rewrite (intersection_run h1 r b (Obj (_pcs A ∖ _pcs B)) B);
        [|apply lookup_insert_eq|done].
      simpl. do 3 f_equal. apply set_eq. intros x.
      rewrite elem_of_intersection, elem_of_difference, elem_of_empty. tauto.
    + intros Heq. rewrite Heq in Hfresh1. unfold h1 in Hfresh1.
      by rewrite lookup_insert_eq in Hfresh1.
    + destruct (decide (fresh (dom h1) = r)) as [Heq|Hne]; [by rewrite Heq|].
      unfold h1 in Hfresh1. by rewrite lookup_insert_ne in Hfresh1.
Qed.

Lemma set_algebra_fresh_result_witness :
  ∃ r, ({[1%positive := Obj {[0; 4]}]} : store) !! r = None ∧
       PCSet.union 1%positive 1%positive {[1%positive := Obj {[0; 4]}]}
         = (inr r, <[r := Obj ({[0; 4]} ∪ {[0; 4]})]> {[1%positive := Obj {[0; 4]}]}).
Proof.
  destruct (set_algebra_fresh_result {[1%positive := Obj {[0; 4]}]} 1%positive 1%positive
              (Obj {[0; 4]}) (Obj {[0; 4]})) as (r & Hr & Hu & _); [reflexivity..|].
  exists r. split; [exact Hr|exact Hu].
Defined.

(** ** Facts about the built-ins *)

Lemma foldl_add_foldr (l : list Z) a : foldl Z.add a l = a + foldr Z.add 0 l.
Proof.
  revert a. induction l as [|x l IH]; intros a; simpl; [lia|].
  rewrite IH. lia.
Qed.

Lemma sum_foldr l : Py.sum l = foldr Z.add 0 l.
Proof. unfold Py.sum. rewrite foldl_add_foldr. lia. Qed.

Lemma sum_cons x l : Py.sum (x :: l) = x + Py.sum l.
Proof. by rewrite !sum_foldr. Qed.

Lemma sum_perm l1 l2 : l1 ≡ₚ l2 → Py.sum l1 = Py.sum l2.
Proof.
  intros Hp. rewrite !sum_foldr.
  induction Hp; simpl; lia.
Qed.

Lemma shl1_pow k : 0 ≤ k → Py.shl1 k = 2 ^ k.
Proof. intros Hk. unfold Py.shl1. by rewrite Z.shiftl_1_l. Qed.

Lemma sorted_Permutation l : Py.sorted l ≡ₚ l.
Proof. apply merge_sort_Permutation. Qed.

Lemma sorted_StronglySorted l : StronglySorted Z.le (Py.sorted l).
Proof. apply StronglySorted_merge_sort; apply _. Qed.

Lemma sorted_perm l1 l2 : l1 ≡ₚ l2 → Py.sorted l1 = Py.sorted l2.
Proof.
  intros Hp. apply (StronglySorted_unique Z.le); try apply sorted_StronglySorted.
  by rewrite !sorted_Permutation.
Qed.

Lemma StronglySorted_le_lt l : NoDup l → StronglySorted Z.le l → Sorted Z.lt l.
Proof.
  induction l as [|x l IH]; intros Hnd Hs; [constructor|].
  apply NoDup_cons in Hnd as [Hx Hnd].
  apply StronglySorted_inv in Hs as [Hs Hall].
  constructor; [by apply IH|].
  destruct l as [|y l]; constructor.
  apply Forall_cons in Hall as [Hxy _].
  assert (x ≠ y) by (intros ->; apply Hx; left). lia.
Qed.

Lemma sorted_lt l : NoDup l → Sorted Z.lt (Py.sorted l).
Proof.
  intros Hnd. apply StronglySorted_le_lt; [|apply sorted_StronglySorted].
  by rewrite sorted_Permutation.
Qed.

Lemma foldl_min_spec t x :
  (foldl Z.min x t = x ∨ foldl Z.min x t ∈ t) ∧
  foldl Z.min x t ≤ x ∧ ∀ y, y ∈ t → foldl Z.min x t ≤ y.
Proof.
  revert x. induction t as [|z t IH]; intros x; simpl.
  - split_and!; [by left|lia|]. intros y Hy. by apply elem_of_nil in Hy.
  - destruct (IH (Z.min x z)) as (Hin & Hle & Hall). split_and!.
    + destruct Hin as [->|Hin]; [|right; by right].
      destruct (Z.min_spec x z) as [[_ ->]|[_ ->]]; [by left|right; left].
    + lia.
    + intros y Hy. apply elem_of_cons in Hy as [->|Hy]; [lia|by apply Hall].
Qed.

Lemma min_spec l :
  l ≠ [] → ∃ m, Py.min l = inr m ∧ m ∈ l ∧ ∀ x, x ∈ l → m ≤ x.
Proof.
  destruct l as [|x t]; [done|]. intros _.
  destruct (foldl_min_spec t x) as (Hin & Hle & Hall).
  exists (foldl Z.min x t). split_and!; [done| |].
  - destruct Hin as [->|Hin]; [left|by right].
  - intros y Hy. apply elem_of_cons in Hy as [->|Hy]; [done|by apply Hall].
Qed.

Lemma index_spec m l :
  m ∈ l →
  ∃ i : nat, Py.index m l = inr (Z.of_nat i) ∧ l !! i = Some m ∧
             ∀ j y, (j < i)%nat → l !! j = Some y → y ≠ m.
Proof.
  induction l as [|y l IH]; intros Hm; [by apply elem_of_nil in Hm|].
  simpl. destruct (decide (y = m)) as [->|Hne].
  - exists 0%nat. split_and!; [done..|]. intros; lia.
  - apply elem_of_cons in Hm as [->|Hm]; [done|].
    destruct (IH Hm) as (i & Hidx & Hi & Hfirst). exists (S i).
    rewrite Hidx. simpl. split_and!; [f_equal; lia|done|].
    intros [|j] z Hj Hz; simpl in Hz; [congruence|].
    apply (Hfirst j); [lia|done].
Qed.

Lemma rotate_list_nat {A} (l : list A) (i : nat) :
  (i ≤ length l)%nat →
  PCSet._rotate_list l (Z.of_nat i) = drop i l ++ take i l.
Proof.
  intros Hi. unfold PCSet._rotate_list, Py.slice_from, Py.slice_to, Py.clamp, Py.norm_index.
  destruct (decide (Z.of_nat i < 0)) as [?|_]; [lia|].
  by replace (Z.to_nat (Z.min (Z.of_nat (length l)) (Z.max 0 (Z.of_nat i)))) with i by lia.
Qed.

Lemma getitem_nat {A} (l : list A) (i : nat) a :
  l !! i = Some a → Py.getitem l (Z.of_nat i) = inr a.
Proof.
  intros Hi. unfold Py.getitem, Py.norm_index.
  destruct (decide (Z.of_nat i < 0)) as [?|_]; [lia|].
  destruct (decide (0 ≤ Z.of_nat i)) as [_|?]; [|lia].
  by rewrite Nat2Z.id, Hi.
Qed.

(** [min] followed by [index] selects the first position at which the
    scores are least. *)
Lemma argmin_spec {A} (f : A → Z) (l : list A) :
  l ≠ [] →
  ∃ (m : Z) (i : nat) (a : A),
    Py.min (f <$> l) = inr m ∧ Py.index m (f <$> l) = inr (Z.of_nat i) ∧
    l !! i = Some a ∧ f a = m ∧
    (∀ b, b ∈ l → f a ≤ f b) ∧
    (∀ j b, (j < i)%nat → l !! j = Some b → f a < f b).
Proof.
  intros Hl.
  destruct (min_spec (f <$> l)) as (m & Hmin & Hm & Hleast).
  { by destruct l. }
  destruct (index_spec m (f <$> l) Hm) as (i & Hidx & Hi & Hfirst).
  apply list_lookup_fmap_Some in Hi as (a & Hfa & Ha).
  exists m, i, a. split_and!; try done.
  - intros b Hb. rewrite <- Hfa. apply Hleast. by apply list_elem_of_fmap_2.
  - intros j b Hj Hb.
    assert (f b ≠ m) as Hne.
    { apply (Hfirst j); [done|]. by rewrite list_lookup_fmap, Hb. }
    assert (m ≤ f b).
    { apply Hleast, list_elem_of_fmap_2. by eapply list_elem_of_lookup_2. }
    lia.
Qed.

(** ** Iteration over a set *)

Lemma iterates_elements (s : gset Z) : Py.iterates s (elements s).
Proof. unfold Py.iterates. reflexivity. Qed.

Lemma iterates_NoDup (s : gset Z) it : Py.iterates s it → NoDup it.
Proof. intros Hit. unfold Py.iterates in Hit. rewrite Hit. apply NoDup_elements. Qed.

Lemma iterates_elem_of (s : gset Z) it x : Py.iterates s it → x ∈ it ↔ x ∈ s.
Proof. intros Hit. unfold Py.iterates in Hit. by rewrite Hit, elem_of_elements. Qed.

Lemma iterates_empty it : Py.iterates ∅ it → it = [].
Proof.
  unfold Py.iterates. rewrite elements_empty. apply Permutation_nil_r.
Qed.

Lemma iterates_nonempty (s : gset Z) it : Py.iterates s it → s ≠ ∅ → it ≠ [].
Proof.
  intros Hit Hs ->. apply Hs. apply set_eq. intros x.
  rewrite <- (iterates_elem_of s [] x Hit). rewrite elem_of_nil, elem_of_empty. done.
Qed.

Lemma iterates_length (s : gset Z) it : Py.iterates s it → length it = size s.
Proof. intros Hit. unfold Py.iterates in Hit. by rewrite Hit. Qed.

Lemma sorted_nonempty l : l ≠ [] → Py.sorted l ≠ [].
Proof.
  intros Hl Hs. apply Hl. apply Permutation_nil_r.
  by rewrite <- Hs, sorted_Permutation.
Qed.

(** ** Normal order *)

Lemma foldr_add_fmap {A} (g : A → Z) (l : list A) :
  foldr (λ b acc, g b + acc) 0 l = foldr Z.add 0 (g <$> l).
Proof. induction l as [|x l IH]; simpl; [done|by rewrite IH]. Qed.

Lemma normal_order_score (s : gset Z) l a :
  l ≡ₚ elements s →
  Py.sum ((λ pc_b, Py.shl1 ((pc_b - a) mod 12)) <$> l) = Spec.score s a.
Proof.
  intros Hl. unfold Spec.score, set_fold. simpl.
  rewrite (foldr_add_fmap (λ b, 2 ^ ((b - a) mod 12))), <- sum_foldr.
  rewrite (sum_perm _ ((λ pc_b, Py.shl1 ((pc_b - a) mod 12)) <$> elements s))
    by (by apply fmap_Permutation).
  f_equal. apply list_fmap_ext. intros _ b _.
  apply shl1_pow. pose proof (Z.mod_pos_bound (b - a) 12). lia.
Qed.

(** The value of [normal_order] depends on the set only, not on the order
    in which it is iterated. *)
Lemma normal_order_iterates (s : gset Z) it :
  Py.iterates s it → PCSet.normal_order it = PCSet.normal_order (elements s).
Proof.
  intros Hit. unfold PCSet.normal_order. by rewrite (sorted_perm it (elements s)).
Qed.

(** C1: for a non-empty set, [normal_order] returns the ascending-sorted
    element list rotated to begin at the first position whose element [a]
    has the least score, where score(a) is the sum over all [b] of the set
    of [2^((b - a) mod 12)]; for the set of [PCSet(10,4,9,6)] it returns
    [[4,6,9,10]]. *)
Theorem normal_order_spec (self : obj) (it : list Z) :
  Py.iterates (_pcs self) it →
  _pcs self ≠ ∅ →
  (∃ (sorted_pcs : list Z) (i : nat) (a : Z),
     Sorted Z.lt sorted_pcs ∧
     (∀ x, x ∈ sorted_pcs ↔ x ∈ _pcs self) ∧
     sorted_pcs !! i = Some a ∧
     (∀ b, b ∈ _pcs self → Spec.score (_pcs self) a ≤ Spec.score (_pcs self) b) ∧
     (∀ j b, (j < i)%nat → sorted_pcs !! j = Some b →
             Spec.score (_pcs self) a < Spec.score (_pcs self) b) ∧
     PCSet.normal_order it = inr (drop i sorted_pcs ++ take i sorted_pcs)) ∧
  (_pcs self = list_to_set [10; 4; 9; 6] → PCSet.normal_order it = inr [4; 6; 9; 10]).
Proof.
  intros Hit Hne. split.
  - set (s := _pcs self) in *.
    assert (Py.sorted it ≡ₚ elements s) as Hperm.
    { by rewrite sorted_Permutation. }
    assert (∀ x, x ∈ Py.sorted it ↔ x ∈ s) as Hmem.
    { intros x. by rewrite Hperm, elem_of_elements. }
    destruct (argmin_spec
                (λ pc_a, Py.sum ((λ pc_b, Py.shl1 ((pc_b - pc_a) mod 12)) <$> Py.sorted it))
                (Py.sorted it))
      as (m & i & a & Hmin & Hidx & Hi & _ & Hleast & Hfirst).
    { eapply sorted_nonempty, iterates_nonempty; eauto. }
    exists (Py.sorted it), i, a. split_and!; try done.
    + apply sorted_lt. by eapply iterates_NoDup.
    + intros b Hb. rewrite <- !(normal_order_score s (Py.sorted it)) by done.
      by apply Hleast, Hmem.
    + intros j b Hj Hb. rewrite <- !(normal_order_score s (Py.sorted it)) by done.
      by eapply Hfirst.
    + unfold PCSet.normal_order. rewrite Hmin. simpl. rewrite Hidx. simpl.
      unfold ok. f_equal. apply rotate_list_nat.
      apply lookup_lt_Some in Hi. lia.
  - intros Hs. rewrite (normal_order_iterates _ _ Hit), Hs. by vm_compute.
Qed.

Lemma normal_order_spec_witness :
  PCSet.normal_order [10; 4; 9; 6] = inr [4; 6; 9; 10].
Proof.
  refine (proj2 (normal_order_spec (Obj (list_to_set [10; 4; 9; 6])) [10; 4; 9; 6] _ _) eq_refl).
  - unfold Py.iterates. apply NoDup_Permutation.
    + compute_done.
    + apply NoDup_elements.
    + intros x. rewrite elem_of_elements. simpl.
      rewrite !elem_of_union, !elem_of_singleton, !elem_of_cons, elem_of_nil, elem_of_empty.
      tauto.
  - simpl. intros Hs. assert (10 ∈ (∅ : gset Z)) as Hx; [|by apply elem_of_empty in Hx].
    rewrite <- Hs. apply elem_of_union. left. by apply elem_of_singleton.
Defined.

(** ** Descriptors of the empty set *)

(** C4: on the empty set, [normal_order] and [prime_form] raise a
    [ValueError], that of [min] applied to an empty list, whereas
    [interval_class_vector] returns six zeros. *)
Theorem empty_set_descriptors (it it_inv : list Z) :
  Py.iterates ∅ it →
  Py.iterates (PCSet.inverted_pcs ∅) it_inv →
  (∃ msg, PCSet.normal_order it = inl (ValueError msg)) ∧
  (∃ msg, PCSet.prime_form it it_inv = inl (ValueError msg)) ∧
  PCSet.interval_class_vector it = inr [0; 0; 0; 0; 0; 0].
Proof.
  intros Hit Hinv. apply iterates_empty in Hit as ->.
  unfold PCSet.inverted_pcs in Hinv. rewrite set_map_empty in Hinv.
  apply iterates_empty in Hinv as ->.
  split_and!; [by eexists..|done].
Qed.

Lemma empty_set_descriptors_witness :
  ∃ msg, PCSet.normal_order [] = inl (ValueError msg).
Proof.
  refine (proj1 (empty_set_descriptors [] [] _ _)).
  - apply iterates_elements.
  - unfold PCSet.inverted_pcs. rewrite set_map_empty. apply iterates_elements.
Defined.

(** ** Interval-class vector *)

Lemma fold_interval_class a b :
  (let pc_ivl := (b - a) mod 12 in
   if decide (pc_ivl > 6) then (- pc_ivl) mod 12 else pc_ivl)
  = Spec.interval_class a b.
Proof.
  unfold Spec.interval_class. simpl.
  pose proof (Z.mod_pos_bound (b - a) 12 ltac:(lia)) as Hd.
  set (d := (b - a) mod 12) in *. case_decide.
  - replace (- d) with (12 - d + (-1) * 12) by lia.
    rewrite Z_mod_plus_full, Z.mod_small by lia. lia.
  - lia.
Qed.

Lemma interval_class_sym a b : Spec.interval_class a b = Spec.interval_class b a.
Proof.
  unfold Spec.interval_class.
  pose proof (Z.mod_pos_bound (b - a) 12 ltac:(lia)) as Hd.
  pose proof (Z.mod_pos_bound (a - b) 12 ltac:(lia)) as He.
  destruct (decide ((b - a) mod 12 = 0)) as [H0|Hn0].
  - assert ((a - b) mod 12 = 0) as H1.
    { replace (a - b) with (- (b - a)) by lia. by apply Z_mod_zero_opp_full. }
    lia.
  - assert ((a - b) mod 12 = 12 - (b - a) mod 12) as H1.
    { replace (a - b) with (- (b - a)) by lia. by apply Z_mod_nz_opp_full. }
    lia.
Qed.

Lemma interval_class_range a b :
  in_range a → in_range b → a ≠ b → 1 ≤ Spec.interval_class a b ≤ 6.
Proof.
  unfold in_range, Spec.interval_class. intros Ha Hb Hab.
  pose proof (Z.mod_pos_bound (b - a) 12 ltac:(lia)) as Hd.
  assert ((b - a) mod 12 ≠ 0) as Hnz.
  { intros H0. apply Z.mod_divide in H0 as [q Hq]; lia. }
  lia.
Qed.

Lemma class_count_cons c a b ps :
  Spec.class_count c ((a, b) :: ps)
  = (if decide (Spec.interval_class a b = c) then 1 else 0) + Spec.class_count c ps.
Proof.
  unfold Spec.class_count. rewrite filter_cons. simpl.
  case_decide; simpl; lia.
Qed.

Lemma class_count_app c ps1 ps2 :
  Spec.class_count c (ps1 ++ ps2) = Spec.class_count c ps1 + Spec.class_count c ps2.
Proof. unfold Spec.class_count. rewrite filter_app, length_app. lia. Qed.

Lemma class_count_perm c ps1 ps2 :
  ps1 ≡ₚ ps2 → Spec.class_count c ps1 = Spec.class_count c ps2.
Proof. intros Hp. unfold Spec.class_count. by rewrite Hp. Qed.

Lemma incr_item_ok (l : list Z) (c v : Z) :
  1 ≤ c → l !! Z.to_nat (c - 1) = Some v →
  Py.incr_item l (c - 1) = inr (<[Z.to_nat (c - 1) := v + 1]> l).
Proof.
  intros Hc Hv. unfold Py.incr_item, Py.getitem, Py.norm_index.
  destruct (decide (c - 1 < 0)) as [?|_]; [lia|].
  destruct (decide (0 ≤ c - 1)) as [_|?]; [|lia].
  by rewrite Hv.
Qed.

(** The loop adds to every counter the number of pairs of its class. *)
Lemma icv_loop (ps : list (Z * Z)) (acc : list Z) :
  length acc = 6%nat →
  Forall (λ p, 1 ≤ Spec.interval_class p.1 p.2 ≤ 6) ps →
  Py.for_each
    (λ result '(pc_a, pc_b),
       let pc_ivl := (pc_b - pc_a) mod 12 in
       let pc_ivl := if decide (pc_ivl > 6) then (- pc_ivl) mod 12 else pc_ivl in
       Py.incr_item result (pc_ivl - 1))
    acc ps
  = inr (zip_with Z.add acc ((λ c, Spec.class_count c ps) <$> [1; 2; 3; 4; 5; 6])).
Proof.
  intros Hlen Hall. revert acc Hlen.
  induction Hall as [|[a b] ps Hp _ IH]; intros acc Hlen.
  - do 7 (destruct acc as [|? acc]; try done).
    unfold Spec.class_count. simpl. by rewrite !Z.add_0_r.
  - do 7 (destruct acc as [|? acc]; try done). simpl in Hp.
    cbn [Py.for_each fmap list_fmap zip_with]. rewrite fold_interval_class.
    rewrite !class_count_cons.
    assert (Spec.interval_class a b = 1 ∨ Spec.interval_class a b = 2 ∨
            Spec.interval_class a b = 3 ∨ Spec.interval_class a b = 4 ∨
            Spec.interval_class a b = 5 ∨ Spec.interval_class a b = 6) as Hc by lia.
    destruct Hc as [Hc|[Hc|[Hc|[Hc|[Hc|Hc]]]]]; rewrite Hc;
      (erewrite incr_item_ok; [|lia|reflexivity]); cbn [rbind];
      rewrite IH by done; simpl; rewrite ?Z.add_0_l, ?Z.add_assoc; done.
Qed.

Lemma bind_perm_pointwise {A B} (f g : A → list B) (l : list A) :
  (∀ a, f a ≡ₚ g a) → l ≫= f ≡ₚ l ≫= g.
Proof.
  intros Hfg. induction l as [|a l IH]; [done|].
  rewrite !bind_cons. by rewrite Hfg, IH.
Qed.

Lemma unordered_pairs_perm l1 l2 :
  l1 ≡ₚ l2 → Spec.unordered_pairs l1 ≡ₚ Spec.unordered_pairs l2.
Proof.
  intros Hp. unfold Spec.unordered_pairs.
  rewrite (bind_perm_pointwise _ (λ a, pair a <$> filter (λ b, a < b) l2)).
  - by rewrite Hp.
  - intros a. by rewrite Hp.
Qed.

(** Adding [x] to the partners adds the pairs [(a, x)] with [a < x]. *)
Lemma unordered_pairs_grow c x t l :
  Spec.class_count c (l ≫= λ a, pair a <$> filter (λ b, a < b) (x :: t))
  = Spec.class_count c (l ≫= λ a, pair a <$> filter (λ b, a < b) t)
    + Spec.class_count c ((λ a, (a, x)) <$> filter (λ a, a < x) l).
Proof.
  induction l as [|a l IH]; [done|].
  rewrite !bind_cons, !class_count_app, IH. rewrite !filter_cons.
  destruct (decide (a < x)) as [Hax|Hax].
  - rewrite !fmap_cons, !class_count_cons. lia.
  - lia.
Qed.

Lemma pairs_with_split c x t :
  x ∉ t →
  Spec.class_count c (pair x <$> t)
  = Spec.class_count c (pair x <$> filter (λ b, x < b) t)
    + Spec.class_count c ((λ a, (a, x)) <$> filter (λ a, a < x) t).
Proof.
  induction t as [|b t IH]; intros Hx; [done|].
  apply not_elem_of_cons in Hx as [Hxb Hx].
  rewrite !filter_cons, fmap_cons, class_count_cons, IH by done.
  destruct (decide (x < b)) as [Hlt|Hlt].
  - destruct (decide (b < x)) as [?|_]; [lia|].
    rewrite fmap_cons, class_count_cons. lia.
  - destruct (decide (b < x)) as [_|?]; [|lia].
    rewrite fmap_cons, class_count_cons.
    rewrite (interval_class_sym b x). lia.
Qed.

(** [combinations] yields every unordered pair exactly once, in one of its
    two orientations. *)
Lemma combinations2_class_count c it :
  NoDup it →
  Spec.class_count c (Py.combinations2 it) = Spec.class_count c (Spec.unordered_pairs it).
Proof.
  induction it as [|x t IH]; intros Hnd; [done|].
  apply NoDup_cons in Hnd as [Hx Hnd].
  simpl. rewrite class_count_app, IH by done.
  unfold Spec.unordered_pairs. rewrite bind_cons, class_count_app.
  rewrite unordered_pairs_grow, filter_cons, decide_False by lia.
  rewrite (pairs_with_split c x t) by done. lia.
Qed.

Lemma combinations2_elem_of {A} (l : list A) a b :
  (a, b) ∈ Py.combinations2 l → a ∈ l ∧ b ∈ l.
Proof.
  induction l as [|x t IH]; simpl; [by rewrite elem_of_nil|].
  rewrite elem_of_app, list_elem_of_fmap. intros [(y & Heq & Hy)|Hin].
  - injection Heq as -> ->. split; [left|by right].
  - destruct (IH Hin). split; by right.
Qed.

Lemma combinations2_distinct {A} (l : list A) a b :
  NoDup l → (a, b) ∈ Py.combinations2 l → a ≠ b.
Proof.
  induction l as [|x t IH]; simpl; intros Hnd; [by rewrite elem_of_nil|].
  apply NoDup_cons in Hnd as [Hx Hnd].
  rewrite elem_of_app, list_elem_of_fmap. intros [(y & Heq & Hy)|Hin].
  - injection Heq as -> ->. by intros ->.
  - by apply IH.
Qed.

Lemma combinations2_length {A} (l : list A) :
  2 * Z.of_nat (length (Py.combinations2 l))
  = Z.of_nat (length l) * (Z.of_nat (length l) - 1).
Proof.
  induction l as [|x t IH]; [done|].
  simpl Py.combinations2. rewrite length_app, length_fmap. simpl length. lia.
Qed.

Lemma class_count_total ps :
  Forall (λ p, 1 ≤ Spec.interval_class p.1 p.2 ≤ 6) ps →
  foldr Z.add 0 ((λ c, Spec.class_count c ps) <$> [1; 2; 3; 4; 5; 6])
  = Z.of_nat (length ps).
Proof.
  induction 1 as [|[a b] ps Hp _ IH]; [done|].
  simpl in Hp. cbn [fmap list_fmap foldr] in *. rewrite !class_count_cons.
  simpl length. repeat case_decide; lia.
Qed.

Lemma combinations2_classes (s : gset Z) it :
  Py.iterates s it → pcs_ok s →
  Forall (λ p, 1 ≤ Spec.interval_class p.1 p.2 ≤ 6) (Py.combinations2 it).
Proof.
  intros Hit Hok. apply Forall_forall. intros [a b] Hab. simpl.
  pose proof (combinations2_distinct it a b (iterates_NoDup s it Hit) Hab) as Hne.
  apply combinations2_elem_of in Hab as [Ha Hb].
  apply interval_class_range; [apply Hok|apply Hok|done];
    by apply (iterates_elem_of s it).
Qed.

Lemma interval_class_vector_counts (s : gset Z) it :
  Py.iterates s it → pcs_ok s →
  PCSet.interval_class_vector it
  = inr ((λ c, Spec.class_count c (Py.combinations2 it)) <$> [1; 2; 3; 4; 5; 6]).
Proof.
  intros Hit Hok. unfold PCSet.interval_class_vector.
  rewrite icv_loop; [done|done|by eapply combinations2_classes].
Qed.

Lemma interval_class_vector_value (s : gset Z) it :
  Py.iterates s it → pcs_ok s →
  PCSet.interval_class_vector it = inr (Spec.pairs_of_class s <$> [1; 2; 3; 4; 5; 6]).
Proof.
  intros Hit Hok. rewrite (interval_class_vector_counts s) by done.
  f_equal. apply list_fmap_ext. intros _ c _. unfold Spec.pairs_of_class.
  rewrite combinations2_class_count by (by eapply iterates_NoDup).
  by apply class_count_perm, unordered_pairs_perm.
Qed.

(** C3: on a set whose elements lie in [0,11], [interval_class_vector]
    returns the six counts whose entry at index [c - 1], for [c] from 1 to
    6, is the number of unordered pairs of distinct elements with interval
    class [min(ivl, 12 - ivl) = c], the tritone class 6 at index 5; the six
    counts sum to C(k,2) for cardinality [k]; for the set of [PCSet(0,6)]
    the vector is [[0,0,0,0,0,1]]. *)
Theorem interval_class_vector_spec (self : obj) (it : list Z) :
  Py.iterates (_pcs self) it →
  pcs_ok (_pcs self) →
  PCSet.interval_class_vector it
    = inr (Spec.pairs_of_class (_pcs self) <$> [1; 2; 3; 4; 5; 6]) ∧
  foldr Z.add 0 (Spec.pairs_of_class (_pcs self) <$> [1; 2; 3; 4; 5; 6])
    = Spec.choose2 (Z.of_nat (size (_pcs self))) ∧
  (_pcs self = list_to_set [0; 6] →
     PCSet.interval_class_vector it = inr [0; 0; 0; 0; 0; 1]).
Proof.
  intros Hit Hok.
  pose proof (interval_class_vector_value _ _ Hit Hok) as Hval.
  split_and!; [done| |].
  - pose proof (interval_class_vector_counts _ _ Hit Hok) as Hcnt.
    assert (Spec.pairs_of_class (_pcs self) <$> [1; 2; 3; 4; 5; 6]
            = (λ c, Spec.class_count c (Py.combinations2 it)) <$> [1; 2; 3; 4; 5; 6])
      as -> by congruence.
    rewrite class_count_total by (by eapply combinations2_classes).
    unfold Spec.choose2. rewrite <- (iterates_length _ _ Hit).
    rewrite <- combinations2_length, Z.mul_comm. by rewrite Z.div_mul.
  - intros Hs. rewrite Hval, Hs. by vm_compute.
Qed.

Lemma interval_class_vector_spec_witness :
  PCSet.interval_class_vector [6; 0] = inr [0; 0; 0; 0; 0; 1].
Proof.
  refine (proj2 (proj2 (interval_class_vector_spec (Obj (list_to_set [0; 6])) [6; 0] _ _)) eq_refl).
  - unfold Py.iterates. apply NoDup_Permutation.
    + compute_done.
    + apply NoDup_elements.
    + intros x. rewrite elem_of_elements. simpl.
      rewrite !elem_of_union, !elem_of_singleton, !elem_of_cons, elem_of_nil, elem_of_empty.
      tauto.
  - intros x Hx. simpl in Hx. unfold in_range.
    rewrite !elem_of_union, !elem_of_singleton, elem_of_empty in Hx. lia.
Defined.

(** ** Prime form *)

(** *** The bit weight identifies a candidate *)

Lemma code_weight lst :
  Forall (λ v, 0 ≤ v) lst → Py.sum (Py.shl1 <$> lst) = Spec.weight lst.
Proof.
  induction 1 as [|v lst Hv _ IH]; [done|].
  rewrite fmap_cons, sum_cons, IH, shl1_pow by done. done.
Qed.

Lemma weight_testbit c k :
  NoDup c → Forall (λ v, 0 ≤ v) c → 0 ≤ k →
  Z.testbit (Spec.weight c) k = bool_decide (k ∈ c).
Proof.
  intros Hnd Hpos. revert k.
  induction c as [|v c IH]; intros k Hk; unfold Spec.weight; cbn [foldr];
    fold Spec.weight.
  - rewrite Z.testbit_0_l. symmetry. rewrite bool_decide_eq_false. apply not_elem_of_nil.
  - apply NoDup_cons in Hnd as [Hv Hnd]. apply Forall_cons in Hpos as [Hv0 Hpos].
    specialize (IH Hnd Hpos). change (foldr _ 0 c) with (Spec.weight c).
    rewrite Z.add_nocarry_lor.
    + rewrite Z.lor_spec, Z.pow2_bits_eqb, IH by done.
      destruct (Z.eqb_spec v k) as [->|Hne]; cbn [orb].
      * symmetry. rewrite bool_decide_eq_true. left.
      * apply bool_decide_ext. rewrite elem_of_cons.
        split; [by right|]. by intros [->|?].
    + apply Z.bits_inj'. intros j Hj.
      rewrite Z.land_spec, Z.pow2_bits_eqb, Z.testbit_0_l by done.
      destruct (Z.eqb_spec v j) as [->|Hne]; cbn [andb]; [|done].
      rewrite IH by done. by rewrite bool_decide_eq_false.
Qed.

Lemma weight_inj c1 c2 :
  StronglySorted Z.le c1 → StronglySorted Z.le c2 →
  NoDup c1 → NoDup c2 →
  Forall (λ v, 0 ≤ v) c1 → Forall (λ v, 0 ≤ v) c2 →
  Spec.weight c1 = Spec.weight c2 → c1 = c2.
Proof.
  intros Hs1 Hs2 Hnd1 Hnd2 Hp1 Hp2 Hw.
  apply (StronglySorted_unique Z.le); [done..|].
  apply NoDup_Permutation; [done..|]. intros k.
  destruct (decide (0 ≤ k)) as [Hk|Hk].
  - pose proof (weight_testbit c1 k Hnd1 Hp1 Hk) as H1.
    pose proof (weight_testbit c2 k Hnd2 Hp2 Hk) as H2.
    rewrite Hw, H2 in H1.
    by rewrite <- (bool_decide_spec (k ∈ c1)), <- (bool_decide_spec (k ∈ c2)), H1.
  - split; intros Hin; [eapply Forall_forall in Hp1|eapply Forall_forall in Hp2];
      eauto; simpl in *; lia.
Qed.

(** *** Candidates *)

Lemma residues_nonneg (a : Z) (l : list Z) :
  Forall (λ v, 0 ≤ v) (Py.sorted ((λ b, (b - a) mod 12) <$> l)).
Proof.
  rewrite sorted_Permutation. apply Forall_fmap, Forall_true. intros b. simpl.
  pose proof (Z.mod_pos_bound (b - a) 12). lia.
Qed.

Lemma candidates_nonneg l c : c ∈ candidates l → Forall (λ v, 0 ≤ v) c.
Proof.
  intros Hc. apply list_elem_of_fmap in Hc as (a & -> & _). apply residues_nonneg.
Qed.

Lemma residue_inj a b b' :
  in_range b → in_range b' → (b - a) mod 12 = (b' - a) mod 12 → b = b'.
Proof.
  unfold in_range. intros Hb Hb' Heq.
  pose proof (Z.div_mod (b - a) 12 ltac:(lia)).
  pose proof (Z.div_mod (b' - a) 12 ltac:(lia)). lia.
Qed.

Lemma candidates_NoDup l c :
  NoDup l → Forall in_range l → c ∈ candidates l → NoDup c.
Proof.
  intros Hnd Hr Hc. apply list_elem_of_fmap in Hc as (a & -> & _).
  rewrite sorted_Permutation. apply NoDup_fmap_2_strong; [|done].
  intros b b' Hb Hb'. apply residue_inj; by eapply Forall_forall.
Qed.

Lemma candidates_sorted l c : c ∈ candidates l → StronglySorted Z.le c.
Proof.
  intros Hc. apply list_elem_of_fmap in Hc as (a & -> & _).
  apply sorted_StronglySorted.
Qed.

Lemma bit_score_inj l c1 c2 :
  NoDup l → Forall in_range l →
  c1 ∈ candidates l → c2 ∈ candidates l →
  bit_score c1 = bit_score c2 → c1 = c2.
Proof.
  intros Hnd Hr H1 H2 Heq. cbn beta in Heq.
  rewrite !code_weight in Heq by (by eapply candidates_nonneg).
  apply weight_inj; eauto using candidates_sorted, candidates_NoDup, candidates_nonneg.
Qed.

(** [min], [index] and the subscript select a candidate of least score. *)
Lemma select_spec (cands : list (list Z)) :
  cands ≠ [] →
  ∃ (m : Z) (i : nat) (c : list Z),
    Py.min (bit_score <$> cands) = inr m ∧
    Py.index m (bit_score <$> cands) = inr (Z.of_nat i) ∧
    Py.getitem cands (Z.of_nat i) = inr c ∧
    c ∈ cands ∧ bit_score c = m ∧
    ∀ c', c' ∈ cands → bit_score c ≤ bit_score c'.
Proof.
  intros Hne.
  destruct (argmin_spec bit_score cands Hne) as (m & i & c & Hmin & Hidx & Hi & Hm & Hleast & _).
  exists m, i, c. split_and!; try done.
  - by apply getitem_nat.
  - by eapply list_elem_of_lookup_2.
Qed.

Lemma select_unique (l1 l2 : list (list Z)) c1 c2 :
  (∀ c, c ∈ l1 ↔ c ∈ l2) →
  (∀ c c', c ∈ l1 → c' ∈ l1 → bit_score c = bit_score c' → c = c') →
  c1 ∈ l1 → (∀ c', c' ∈ l1 → bit_score c1 ≤ bit_score c') →
  c2 ∈ l2 → (∀ c', c' ∈ l2 → bit_score c2 ≤ bit_score c') →
  c1 = c2.
Proof.
  intros Hmem Hinj H1 Hleast1 H2 Hleast2.
  apply Hinj; [done|by apply Hmem|].
  pose proof (Hleast1 c2 (proj2 (Hmem c2) H2)).
  pose proof (Hleast2 c1 (proj1 (Hmem c1) H1)). cbn beta in *. lia.
Qed.

Lemma same_members_nil {A} (l : list A) : (∀ x, x ∈ [] ↔ x ∈ l) → l = [].
Proof.
  intros Hmem. destruct l as [|x l]; [done|].
  exfalso. apply (not_elem_of_nil x), Hmem. left.
Qed.

(** Two runs of [prime_form] whose candidate collections have the same
    members return the same result, whatever the order of the candidates. *)
Lemma prime_form_congr it1 inv1 it2 inv2 :
  NoDup it1 → Forall in_range it1 →
  NoDup inv1 → Forall in_range inv1 →
  (∀ c, c ∈ candidates it1 ↔ c ∈ candidates it2) →
  (∀ c, c ∈ candidates inv1 ↔ c ∈ candidates inv2) →
  PCSet.prime_form it1 inv1 = PCSet.prime_form it2 inv2.
Proof.
  intros Hnd1 Hr1 Hndi Hri Ht Hi. unfold PCSet.prime_form.
  rewrite <- !list_fmap_compose.
  rewrite !(list_fmap_compose _ bit_score).
  set (t1 := candidates it1) in *. set (t2 := candidates it2) in *.
  set (i1 := candidates inv1) in *. set (i2 := candidates inv2) in *.
  destruct (decide (t1 = [])) as [Ht1|Ht1].
  { rewrite Ht1 in *. by rewrite (same_members_nil t2 Ht). }
  assert (t2 ≠ []) as Ht2.
  { intros Ht2. rewrite Ht2 in Ht. apply Ht1, same_members_nil. intros c. by rewrite Ht. }
  destruct (select_spec t1 Ht1) as (m1 & k1 & c1 & Hmin1 & Hidx1 & Hget1 & Hin1 & Hm1 & Hl1).
  destruct (select_spec t2 Ht2) as (m2 & k2 & c2 & Hmin2 & Hidx2 & Hget2 & Hin2 & Hm2 & Hl2).
  assert (c1 = c2) as <-.
  { apply (select_unique t1 t2); try done. intros c c'. by apply bit_score_inj. }
  assert (m2 = m1) as -> by congruence.
  rewrite Hmin1, Hmin2. cbn [rbind].
  destruct (decide (i1 = [])) as [Hi1|Hi1].
  { rewrite Hi1 in *. by rewrite (same_members_nil i2 Hi). }
  assert (i2 ≠ []) as Hi2.
  { intros Hi2. rewrite Hi2 in Hi. apply Hi1, same_members_nil. intros c. by rewrite Hi. }
  destruct (select_spec i1 Hi1) as (n1 & j1 & d1 & Hmini1 & Hidxi1 & Hgeti1 & Hini1 & Hn1 & Hli1).
  destruct (select_spec i2 Hi2) as (n2 & j2 & d2 & Hmini2 & Hidxi2 & Hgeti2 & Hini2 & Hn2 & Hli2).
  assert (d1 = d2) as <-.
  { apply (select_unique i1 i2); try done. intros c c'. by apply bit_score_inj. }
  assert (n2 = n1) as -> by congruence.
  rewrite Hmini1, Hmini2. cbn [rbind].
  case_decide.
  - rewrite Hidx1, Hidx2. cbn [rbind]. by rewrite Hget1, Hget2.
  - rewrite Hidxi1, Hidxi2. cbn [rbind]. by rewrite Hgeti1, Hgeti2.
Qed.

Lemma candidates_members (h : Z → Z) (k : Z → Z → Z) (it l : list Z) :
  l ≡ₚ h <$> it →
  (∀ a b, (h b - h a) mod 12 = k a b) →
  ∀ c, c ∈ candidates l ↔ ∃ a, a ∈ it ∧ c = Py.sorted (k a <$> it).
Proof.
  intros Hl Hk c. rewrite list_elem_of_fmap.
  assert (∀ a, Py.sorted ((λ pc_b, (pc_b - h a) mod 12) <$> l) = Py.sorted (k a <$> it)) as Hcand.
  { intros a. rewrite (sorted_perm _ ((λ pc_b, (pc_b - h a) mod 12) <$> (h <$> it)))
      by (by apply fmap_Permutation).
    rewrite <- list_fmap_compose. f_equal. apply list_fmap_ext. intros _ b _. apply Hk. }
  split.
  - intros (a' & -> & Ha'). rewrite Hl in Ha'.
    apply list_elem_of_fmap in Ha' as (a & -> & Ha). eauto.
  - intros (a & Ha & ->). exists (h a). split; [by rewrite Hcand|].
    rewrite Hl. by apply list_elem_of_fmap_2.
Qed.

Lemma candidates_perm l1 l2 :
  l1 ≡ₚ l2 → ∀ c, c ∈ candidates l1 ↔ c ∈ candidates l2.
Proof.
  intros Hp c.
  rewrite (candidates_members id (λ a b, (b - a) mod 12) l2 l1), 
    (candidates_members id (λ a b, (b - a) mod 12) l2 l2);
    [done| |done| |done]; by rewrite list_fmap_id.
Qed.

Lemma elements_set_map (g : Z → Z) (s : gset Z) :
  (∀ x y, x ∈ s → y ∈ s → g x = g y → x = y) →
  elements (set_map g s : gset Z) ≡ₚ g <$> elements s.
Proof.
  intros Hinj. apply NoDup_Permutation.
  - apply NoDup_elements.
  - apply NoDup_fmap_2_strong; [|apply NoDup_elements].
    intros x y Hx Hy. apply Hinj; by apply elem_of_elements.
  - intros y. rewrite elem_of_elements, elem_of_map, list_elem_of_fmap.
    by setoid_rewrite elem_of_elements.
Qed.

Lemma negate_inj x y : in_range x → in_range y → (- x) mod 12 = (- y) mod 12 → x = y.
Proof.
  unfold in_range. intros Hx Hy Heq.
  pose proof (Z.div_mod (- x) 12 ltac:(lia)).
  pose proof (Z.div_mod (- y) 12 ltac:(lia)). lia.
Qed.

Lemma transpose_inj n x y :
  in_range x → in_range y → (x + n) mod 12 = (y + n) mod 12 → x = y.
Proof.
  intros Hx Hy Heq. apply (residue_inj (- n)); [done..|].
  by replace (x - - n) with (x + n) by lia; replace (y - - n) with (y + n) by lia.
Qed.

Lemma iterates_inverted (s : gset Z) it it_inv :
  pcs_ok s → Py.iterates s it → Py.iterates (PCSet.inverted_pcs s) it_inv →
  it_inv ≡ₚ (λ pc, (- pc) mod 12) <$> it.
Proof.
  intros Hok Hit Hinv. unfold Py.iterates, PCSet.inverted_pcs in *.
  rewrite Hinv, Hit. apply elements_set_map.
  intros x y Hx Hy. apply negate_inj; by apply Hok.
Qed.

Lemma iterates_in_range (s : gset Z) it : pcs_ok s → Py.iterates s it → Forall in_range it.
Proof.
  intros Hok Hit. apply Forall_forall. intros x Hx.
  by apply Hok, (iterates_elem_of s it).
Qed.

Lemma pcs_ok_inverted (s : gset Z) : pcs_ok (PCSet.inverted_pcs s).
Proof. apply pcs_ok_set_map. intros. apply mod12_in_range. Qed.

(** The value of [prime_form] depends on the set only, not on the orders in
    which the set and its inversion are iterated. *)
Lemma prime_form_iterates (s : gset Z) it it_inv :
  pcs_ok s → Py.iterates s it → Py.iterates (PCSet.inverted_pcs s) it_inv →
  PCSet.prime_form it it_inv
  = PCSet.prime_form (elements s) (elements (PCSet.inverted_pcs s)).
Proof.
  intros Hok Hit Hinv. apply prime_form_congr.
  - by eapply iterates_NoDup.
  - by eapply iterates_in_range.
  - by eapply iterates_NoDup.
  - eapply iterates_in_range; [apply pcs_ok_inverted|done].
  - by apply candidates_perm.
  - by apply candidates_perm.
Qed.

Lemma code_candidate (s : gset Z) l a :
  Py.iterates s l →
  Py.sorted ((λ pc_b, (pc_b - a) mod 12) <$> l) = Spec.candidate s a.
Proof. intros Hl. unfold Spec.candidate. by apply sorted_perm, fmap_Permutation. Qed.

(** One side of [prime_form]: the set, or its inversion. *)
Lemma side_select (s : gset Z) (l : list Z) :
  Py.iterates s l → s ≠ ∅ →
  ∃ (a m : Z) (i : nat),
    a ∈ s ∧
    Py.min (bit_score <$> candidates l) = inr m ∧
    Py.index m (bit_score <$> candidates l) = inr (Z.of_nat i) ∧
    Py.getitem (candidates l) (Z.of_nat i) = inr (Spec.candidate s a) ∧
    m = Spec.weight (Spec.candidate s a) ∧
    ∀ b, b ∈ s → Spec.weight (Spec.candidate s a) ≤ Spec.weight (Spec.candidate s b).
Proof.
  intros Hl Hs.
  destruct (select_spec (candidates l)) as (m & i & c & Hmin & Hidx & Hget & Hin & Hm & Hleast).
  { pose proof (iterates_nonempty s l Hl Hs). by destruct l. }
  pose proof (candidates_nonneg l c Hin) as Hpos.
  apply list_elem_of_fmap in Hin as (a & -> & Ha).
  rewrite (code_candidate s l a Hl) in *. cbn beta in Hm.
  rewrite code_weight in Hm by done.
  exists a, m, i. split_and!; try done.
  - by apply (iterates_elem_of s l).
  - intros b Hb. rewrite <- (code_weight (Spec.candidate s a)) by done.
    rewrite <- (code_weight (Spec.candidate s b)).
    + rewrite <- (code_candidate s l b Hl).
      apply (Hleast (Py.sorted ((λ pc_b, (pc_b - b) mod 12) <$> l))).
      apply (list_elem_of_fmap_2 (λ pc_a, Py.sorted ((λ pc_b, (pc_b - pc_a) mod 12) <$> l))).
      by apply (iterates_elem_of s l).
    + rewrite <- (code_candidate s l b Hl). apply residues_nonneg.
Qed.

Lemma inverted_nonempty (s : gset Z) : s ≠ ∅ → PCSet.inverted_pcs s ≠ ∅.
Proof.
  intros Hs. apply set_choose_L in Hs as [x Hx]. intros Hempty.
  assert ((- x) mod 12 ∈ PCSet.inverted_pcs s) as Hin.
  { unfold PCSet.inverted_pcs. apply elem_of_map. eauto. }
  rewrite Hempty in Hin. by apply elem_of_empty in Hin.
Qed.

(** C2: for a non-empty set, [prime_form] returns a candidate -- the sorted
    list of [(b - a) mod 12] over all [b], for a starting element [a] -- of
    least bit weight among the candidates of the set, or such a candidate of
    least bit weight among those of the pitch-inversion of the set, which is
    the set of the [(- pc) mod 12] for [pc] in the set; the candidate of the
    set is returned whenever its weight is at most that of the candidate of
    the inversion.  For the sets of [PCSet(0,1,2)] and [PCSet(0,4,8)] the
    results are [[0,1,2]] and [[0,4,8]]; for the set of [PCSet(0,4,7)],
    which differs from its inversion, the candidate of the inversion wins
    and the result is [[0,3,7]]. *)
Theorem prime_form_spec (self : obj) (it it_inv : list Z) :
  Py.iterates (_pcs self) it →
  Py.iterates (PCSet.inverted_pcs (_pcs self)) it_inv →
  _pcs self ≠ ∅ →
  (∃ (inversion : gset Z) (a a' : Z),
     (∀ y, y ∈ inversion ↔ ∃ pc, pc ∈ _pcs self ∧ y = (- pc) mod 12) ∧
     a ∈ _pcs self ∧ a' ∈ inversion ∧
     (∀ b, b ∈ _pcs self →
        Spec.weight (Spec.candidate (_pcs self) a)
        ≤ Spec.weight (Spec.candidate (_pcs self) b)) ∧
     (∀ b, b ∈ inversion →
        Spec.weight (Spec.candidate inversion a')
        ≤ Spec.weight (Spec.candidate inversion b)) ∧
     PCSet.prime_form it it_inv
     = inr (if decide (Spec.weight (Spec.candidate (_pcs self) a)
                       ≤ Spec.weight (Spec.candidate inversion a'))
            then Spec.candidate (_pcs self) a
            else Spec.candidate inversion a')) ∧
  (_pcs self = list_to_set [0; 1; 2] → PCSet.prime_form it it_inv = inr [0; 1; 2]) ∧
  (_pcs self = list_to_set [0; 4; 8] → PCSet.prime_form it it_inv = inr [0; 4; 8]) ∧
  (_pcs self = list_to_set [0; 4; 7] → PCSet.prime_form it it_inv = inr [0; 3; 7]).
Proof.
  intros Hit Hinv Hne. split_and!.
  - destruct (side_select _ _ Hit Hne)
      as (a & mt & i & Ha & Hmint & Hidxt & Hgett & -> & Hleastt).
    destruct (side_select _ _ Hinv (inverted_nonempty _ Hne))
      as (a' & mi & j & Ha' & Hmini & Hidxi & Hgeti & -> & Hleasti).
    exists (PCSet.inverted_pcs (_pcs self)), a, a'. split_and!; try done.
    + intros y. unfold PCSet.inverted_pcs. rewrite elem_of_map.
      split; intros (pc & Hy & Hpc); eauto.
    + unfold PCSet.prime_form. rewrite Hmint, Hmini. cbn [rbind].
      case_decide.
      * rewrite Hidxt. cbn [rbind]. by rewrite Hgett.
      * rewrite Hidxi. cbn [rbind]. by rewrite Hgeti.
  - intros Hs. rewrite (prime_form_iterates (_pcs self)); try done.
    + rewrite Hs. by vm_compute.
    + rewrite Hs. apply pcs_ok_list_to_set. repeat constructor; unfold in_range; lia.
  - intros Hs. rewrite (prime_form_iterates (_pcs self)); try done.
    + rewrite Hs. by vm_compute.
    + rewrite Hs. apply pcs_ok_list_to_set. repeat constructor; unfold in_range; lia.
  - intros Hs. rewrite (prime_form_iterates (_pcs self)); try done.
    + rewrite Hs. by vm_compute.
    + rewrite Hs. apply pcs_ok_list_to_set. repeat constructor; unfold in_range; lia.
Qed.

Lemma prime_form_spec_witness :
  PCSet.prime_form (elements (list_to_set [0; 4; 7] : gset Z))
    (elements (PCSet.inverted_pcs (list_to_set [0; 4; 7]))) = inr [0; 3; 7].
Proof.
  refine (proj2 (proj2 (proj2
            (prime_form_spec (Obj (list_to_set [0; 4; 7])) _ _ _ _ _))) eq_refl).
  - apply iterates_elements.
  - apply iterates_elements.
  - simpl. intros Hs. assert (0 ∈ (∅ : gset Z)) as Hx; [|by apply elem_of_empty in Hx].
    rewrite <- Hs. apply elem_of_union. left. by apply elem_of_singleton.
Defined.

(** ** Prime form and transposition *)

Lemma transposed_residue n a b :
  ((b + n) mod 12 - (a + n) mod 12) mod 12 = (b - a) mod 12.
Proof. rewrite <- Zminus_mod. f_equal. lia. Qed.

Lemma inverted_residue a b : ((- b) mod 12 - (- a) mod 12) mod 12 = (a - b) mod 12.
Proof. rewrite <- Zminus_mod. f_equal. lia. Qed.

Lemma inverted_transposed_residue n a b :
  ((- ((b + n) mod 12)) mod 12 - (- ((a + n) mod 12)) mod 12) mod 12 = (a - b) mod 12.
Proof.
  rewrite inverted_residue. rewrite transposed_residue. done.
Qed.

Lemma iterates_transposed (s : gset Z) n it it' :
  pcs_ok s → Py.iterates s it →
  Py.iterates (set_map (λ pc, (pc + n) mod 12) s) it' →
  it' ≡ₚ (λ pc, (pc + n) mod 12) <$> it.
Proof.
  intros Hok Hit Hit'. unfold Py.iterates in *.
  rewrite Hit', Hit. apply elements_set_map.
  intros x y Hx Hy. apply transpose_inj; by apply Hok.
Qed.

Lemma pcs_ok_transposed (s : gset Z) n : pcs_ok (set_map (λ pc, (pc + n) mod 12) s).
Proof. apply pcs_ok_set_map. intros. apply mod12_in_range. Qed.

Lemma prime_form_transposed (s : gset Z) n it it_inv it' it_inv' :
  pcs_ok s →
  Py.iterates s it →
  Py.iterates (PCSet.inverted_pcs s) it_inv →
  Py.iterates (set_map (λ pc, (pc + n) mod 12) s) it' →
  Py.iterates (PCSet.inverted_pcs (set_map (λ pc, (pc + n) mod 12) s)) it_inv' →
  PCSet.prime_form it' it_inv' = PCSet.prime_form it it_inv.
Proof.
  intros Hok Hit Hinv Hit' Hinv'.
  pose proof (iterates_transposed s n it it' Hok Hit Hit') as Hp'.
  pose proof (iterates_inverted s it it_inv Hok Hit Hinv) as Hpi.
  pose proof (iterates_inverted _ it' it_inv' (pcs_ok_transposed s n) Hit' Hinv') as Hpi'.
  rewrite Hp', <- list_fmap_compose in Hpi'.
  apply prime_form_congr.
  - by eapply iterates_NoDup.
  - eapply iterates_in_range; [apply pcs_ok_transposed|done].
  - by eapply iterates_NoDup.
  - eapply iterates_in_range; [apply pcs_ok_inverted|done].
  - intros c.
    rewrite (candidates_members (λ pc, (pc + n) mod 12) (λ a b, (b - a) mod 12) it it');
      [|done|intros; apply transposed_residue].
    rewrite (candidates_members id (λ a b, (b - a) mod 12) it it);
      [done|by rewrite list_fmap_id|done].
  - intros c.
    rewrite (candidates_members _ (λ a b, (a - b) mod 12) it it_inv' Hpi');
      [|intros; apply inverted_transposed_residue].
    rewrite (candidates_members _ (λ a b, (a - b) mod 12) it it_inv Hpi);
      [done|intros; apply inverted_residue].
Qed.

(** C7: on an instance whose elements lie in [0,11], and for [n] in
    [0,11], [t_n(n)] returns normally, and the prime form of the transposed
    instance equals the prime form before the call, whatever the iteration
    orders of the sets involved. *)
Theorem prime_form_transposition_invariant
    (h : store) (self : loc) (o : obj) (n : Z) (it it_inv : list Z) :
  h !! self = Some o →
  pcs_ok (_pcs o) →
  in_range n →
  Py.iterates (_pcs o) it →
  Py.iterates (PCSet.inverted_pcs (_pcs o)) it_inv →
  ∃ o', PCSet.t_n self n h = (inr tt, <[self := o']> h) ∧
        ∀ it' it_inv',
          Py.iterates (_pcs o') it' →
          Py.iterates (PCSet.inverted_pcs (_pcs o')) it_inv' →
          PCSet.prime_form it' it_inv' = PCSet.prime_form it it_inv.
Proof.
  intros Hself Hok Hn Hit Hinv.
  exists (Obj (set_map (λ pc, (pc + n) mod 12) (_pcs o))). split.
  - run. by rewrite check_n_in, Hself.
  - intros it' it_inv' Hit' Hinv'. simpl in *.
    by apply (prime_form_transposed (_pcs o) n).
Qed.

Lemma prime_form_transposition_invariant_witness :
  ∃ o', PCSet.t_n 1%positive 5 {[1%positive := Obj {[0; 4; 7]}]}
          = (inr tt, <[1%positive := o']> {[1%positive := Obj {[0; 4; 7]}]}) ∧
        PCSet.prime_form (elements (_pcs o')) (elements (PCSet.inverted_pcs (_pcs o')))
        = PCSet.prime_form (elements ({[0; 4; 7]} : gset Z))
            (elements (PCSet.inverted_pcs {[0; 4; 7]})).
Proof.
  destruct (prime_form_transposition_invariant {[1%positive := Obj {[0; 4; 7]}]}
              1%positive (Obj {[0; 4; 7]}) 5
              (elements ({[0; 4; 7]} : gset Z))
              (elements (PCSet.inverted_pcs {[0; 4; 7]}))) as (o' & Hrun & Hpf).
  - reflexivity.
  - intros x Hx. simpl in Hx. unfold in_range.
    rewrite !elem_of_union, !elem_of_singleton in Hx. lia.
  - unfold in_range. lia.
  - apply iterates_elements.
  - apply iterates_elements.
  - exists o'. split; [exact Hrun|]. apply Hpf; apply iterates_elements.
Defined.

(** * Further properties of the class *)

Ltac run_len := unfold PCSet.__len__ in *; run.

(** ** Adding and removing *)

Lemma len_run (h : store) self o :
  h !! self = Some o → PCSet.__len__ self h = (inr (Z.of_nat (size (_pcs o))), h).
Proof. intros Hself. run_len. by rewrite Hself. Qed.

Lemma add_pc_run (h : store) self o pc :
  h !! self = Some o → in_range pc →
  PCSet.add_pc self pc h = (inr tt, <[self := Obj ({[pc]} ∪ _pcs o)]> h).
Proof. intros Hself Hpc. run. by rewrite Hself, check_n_in. Qed.

Lemma remove_pc_run (h : store) self o pc :
  h !! self = Some o → pc ∈ _pcs o →
  PCSet.remove_pc self pc h = (inr tt, <[self := Obj (_pcs o ∖ {[pc]})]> h).
Proof.
  intros Hself Hpc. run. rewrite Hself. unfold set_remove.
  by rewrite decide_True.
Qed.

Lemma insert_same (h : store) self o s :
  h !! self = Some o → s = _pcs o → <[self := Obj s]> h = h.
Proof. intros Hself ->. rewrite obj_eta. by apply insert_id. Qed.

(** X1: [add_pc] of a valid pitch class makes it a member and keeps all
    other members; it changes nothing when the pitch class is already a
    member, so adding twice is adding once; the cardinality grows by one
    exactly when the pitch class was absent. *)
Theorem add_pc_membership (h : store) (self : loc) (o : obj) (pc : Z) :
  h !! self = Some o →
  in_range pc →
  ∃ h1 o1,
    PCSet.add_pc self pc h = (inr tt, h1) ∧
    h1 !! self = Some o1 ∧
    (∀ x, x ∈ _pcs o1 ↔ x = pc ∨ x ∈ _pcs o) ∧
    (pc ∈ _pcs o → h1 = h) ∧
    PCSet.add_pc self pc h1 = (inr tt, h1) ∧
    PCSet.__len__ self h1
    = (inr (Z.of_nat (size (_pcs o)) + (if decide (pc ∈ _pcs o) then 0 else 1)), h1).
Proof.
  intros Hself Hpc.
  exists (<[self := Obj ({[pc]} ∪ _pcs o)]> h), (Obj ({[pc]} ∪ _pcs o)).
  assert (<[self := Obj ({[pc]} ∪ _pcs o)]> h !! self = Some (Obj ({[pc]} ∪ _pcs o)))
    as Hself1 by apply lookup_insert_eq.
  split_and!.
  - by apply add_pc_run.
  - done.
  - intros x. simpl. rewrite elem_of_union, elem_of_singleton. done.
  - intros Hin. apply (insert_same h self o); [done|].
    apply set_eq. intros x. rewrite elem_of_union, elem_of_singleton.
    split; [by intros [->|?]|by right].
  - rewrite (add_pc_run _ self _ pc Hself1 Hpc). simpl.
    rewrite insert_insert_eq. do 3 f_equal.
    apply set_eq. intros x. rewrite !elem_of_union, elem_of_singleton. tauto.
  - rewrite (len_run _ self _ Hself1). simpl. do 2 f_equal.
    case_decide as Hin.
    + rewrite Z.add_0_r. do 2 f_equal.
      apply set_eq. intros x. rewrite elem_of_union, elem_of_singleton.
      split; [by intros [->|?]|by right].
    + rewrite size_union, size_singleton; [lia|].
      intros x Hx Hx'. apply elem_of_singleton in Hx. by subst.
Qed.

Lemma add_pc_membership_witness :
  ∃ h1 o1,
    PCSet.add_pc 1%positive 7 {[1%positive := Obj {[0; 4]}]} = (inr tt, h1) ∧
    h1 !! 1%positive = Some o1 ∧ 7 ∈ _pcs o1.
Proof.
  destruct (add_pc_membership {[1%positive := Obj {[0; 4]}]} 1%positive (Obj {[0; 4]}) 7)
    as (h1 & o1 & Hrun & Hlook & Hmem & _).
  - reflexivity.
  - unfold in_range. lia.
  - exists h1, o1. split_and!; [done..|]. apply Hmem. by left.
Defined.

(** X2: [remove_pc] of a member removes exactly that element and lowers
    the cardinality by one; [remove_pc] after [add_pc] of an absent valid
    pitch class, and [add_pc] after [remove_pc] of a present valid one,
    restore the store. *)
Theorem add_remove_roundtrip (h : store) (self : loc) (o : obj) (pc : Z) :
  h !! self = Some o →
  in_range pc →
  (pc ∈ _pcs o →
     PCSet.remove_pc self pc h = (inr tt, <[self := Obj (_pcs o ∖ {[pc]})]> h) ∧
     (let* _ := PCSet.remove_pc self pc in PCSet.__len__ self)%M h
     = (inr (Z.of_nat (size (_pcs o)) - 1), <[self := Obj (_pcs o ∖ {[pc]})]> h) ∧
     (let* _ := PCSet.remove_pc self pc in PCSet.add_pc self pc)%M h = (inr tt, h)) ∧
  (pc ∉ _pcs o →
     (let* _ := PCSet.add_pc self pc in PCSet.remove_pc self pc)%M h = (inr tt, h)).
Proof.
  intros Hself Hpc. split.
  - intros Hin. split_and!.
    + by apply remove_pc_run.
    + unfold bind. rewrite (remove_pc_run h self o pc) by done.
      rewrite (len_run _ self (Obj (_pcs o ∖ {[pc]}))) by apply lookup_insert_eq.
      simpl. do 2 f_equal. rewrite size_difference.
      * rewrite size_singleton.
        assert (size (_pcs o) ≠ 0%nat); [|lia].
        apply size_non_empty_iff. intros Hempty. rewrite Hempty in Hin.
        by apply elem_of_empty in Hin.
      * intros x Hx. apply elem_of_singleton in Hx. by subst.
    + unfold bind. rewrite (remove_pc_run h self o pc) by done.
      rewrite (add_pc_run _ self (Obj (_pcs o ∖ {[pc]})) pc)
        by (done || apply lookup_insert_eq).
      simpl. rewrite insert_insert_eq. f_equal. apply (insert_same h self o); [done|].
      apply set_eq. intros x.
      rewrite elem_of_union, elem_of_difference, elem_of_singleton.
      destruct (decide (x = pc)) as [->|?]; tauto.
  - intros Hout. unfold bind. rewrite (add_pc_run h self o pc) by done.
    rewrite (remove_pc_run _ self (Obj ({[pc]} ∪ _pcs o)) pc).
    + simpl. rewrite insert_insert_eq. f_equal. apply (insert_same h self o); [done|].
      apply set_eq. intros x.
      rewrite elem_of_difference, elem_of_union, elem_of_singleton.
      destruct (decide (x = pc)) as [->|?]; tauto.
    + apply lookup_insert_eq.
    + simpl. apply elem_of_union. left. by apply elem_of_singleton.
Qed.

Lemma add_remove_roundtrip_witness :
  (let* _ := PCSet.add_pc 1%positive 7 in PCSet.remove_pc 1%positive 7)%M
    {[1%positive := Obj {[0; 4]}]} = (inr tt, {[1%positive := Obj {[0; 4]}]}).
Proof.
  refine (proj2 (add_remove_roundtrip {[1%positive := Obj {[0; 4]}]} 1%positive
                   (Obj {[0; 4]}) 7 eq_refl _) _).
  - unfold in_range. lia.
  - simpl. rewrite !elem_of_union, !elem_of_singleton. lia.
Defined.

(** ** Composing transpositions and inversions *)

Lemma set_map_compose (f g : Z → Z) (k : Z → Z) (s : gset Z) :
  (∀ x, g (f x) = k x) → set_map g (set_map f s : gset Z) = (set_map k s : gset Z).
Proof.
  intros Hk. apply set_eq. intros y. rewrite !elem_of_map. split.
  - intros (z & -> & Hz). apply elem_of_map in Hz as (x & -> & Hx).
    exists x. by rewrite Hk.
  - intros (x & -> & Hx). exists (f x). split; [by rewrite Hk|].
    apply elem_of_map. eauto.
Qed.

Lemma t_n_run (h : store) self o n :
  h !! self = Some o → in_range n →
  PCSet.t_n self n h
  = (inr tt, <[self := Obj (set_map (λ pc, (pc + n) mod 12) (_pcs o))]> h).
Proof. intros Hself Hn. run. by rewrite check_n_in, Hself. Qed.

Lemma i_n_run (h : store) self o n :
  h !! self = Some o → in_range n →
  PCSet.i_n self n h
  = (inr tt, <[self := Obj (set_map (λ pc, (n - pc) mod 12) (_pcs o))]> h).
Proof. intros Hself Hn. run. by rewrite check_n_in, Hself. Qed.

Lemma mod12_tt x a b : ((x + a) mod 12 + b) mod 12 = (x + (a + b) mod 12) mod 12.
Proof.
  rewrite Zplus_mod_idemp_l, Zplus_mod_idemp_r. f_equal. lia.
Qed.

Lemma mod12_ii x a b : (b - (a - x) mod 12) mod 12 = (x + (b - a) mod 12) mod 12.
Proof.
  rewrite Zminus_mod_idemp_r, Zplus_mod_idemp_r. f_equal. lia.
Qed.

Lemma mod12_ti x a b : (b - (x + a) mod 12) mod 12 = ((b - a) mod 12 - x) mod 12.
Proof.
  rewrite Zminus_mod_idemp_r, Zminus_mod_idemp_l. f_equal. lia.
Qed.

Lemma mod12_it x a b : ((a - x) mod 12 + b) mod 12 = ((a + b) mod 12 - x) mod 12.
Proof.
  rewrite Zplus_mod_idemp_l, Zminus_mod_idemp_l. f_equal. lia.
Qed.

(** X3: transpositions and inversions compose as in the dihedral group:
    [t_n(a)] then [t_n(b)] acts as [t_n((a + b) mod 12)], [i_n(a)] then
    [i_n(b)] as [t_n((b - a) mod 12)], [t_n(a)] then [i_n(b)] as
    [i_n((b - a) mod 12)], and [i_n(a)] then [t_n(b)] as
    [i_n((a + b) mod 12)]. *)
Theorem transpose_invert_compose (h : store) (self : loc) (o : obj) (a b : Z) :
  h !! self = Some o →
  in_range a →
  in_range b →
  (let* _ := PCSet.t_n self a in PCSet.t_n self b)%M h
    = PCSet.t_n self ((a + b) mod 12) h ∧
  (let* _ := PCSet.i_n self a in PCSet.i_n self b)%M h
    = PCSet.t_n self ((b - a) mod 12) h ∧
  (let* _ := PCSet.t_n self a in PCSet.i_n self b)%M h
    = PCSet.i_n self ((b - a) mod 12) h ∧
  (let* _ := PCSet.i_n self a in PCSet.t_n self b)%M h
    = PCSet.i_n self ((a + b) mod 12) h.
Proof.
  intros Hself Ha Hb. split_and!; unfold bind.
  - rewrite (t_n_run h self o a), (t_n_run h self o ((a + b) mod 12))
      by (done || apply mod12_in_range).
    rewrite (t_n_run _ self (Obj (set_map (λ pc, (pc + a) mod 12) (_pcs o))) b)
      by (done || apply lookup_insert_eq).
    simpl. rewrite insert_insert_eq. do 3 f_equal.
    apply set_map_compose. intros x. apply mod12_tt.
  - rewrite (i_n_run h self o a), (t_n_run h self o ((b - a) mod 12))
      by (done || apply mod12_in_range).
    rewrite (i_n_run _ self (Obj (set_map (λ pc, (a - pc) mod 12) (_pcs o))) b)
      by (done || apply lookup_insert_eq).
    simpl. rewrite insert_insert_eq. do 3 f_equal.
    apply set_map_compose. intros x. apply mod12_ii.
  - rewrite (t_n_run h self o a), (i_n_run h self o ((b - a) mod 12))
      by (done || apply mod12_in_range).
    rewrite (i_n_run _ self (Obj (set_map (λ pc, (pc + a) mod 12) (_pcs o))) b)
      by (done || apply lookup_insert_eq).
    simpl. rewrite insert_insert_eq. do 3 f_equal.
    apply set_map_compose. intros x. apply mod12_ti.
  - rewrite (i_n_run h self o a), (i_n_run h self o ((a + b) mod 12))
      by (done || apply mod12_in_range).
    rewrite (t_n_run _ self (Obj (set_map (λ pc, (a - pc) mod 12) (_pcs o))) b)
      by (done || apply lookup_insert_eq).
    simpl. rewrite insert_insert_eq. do 3 f_equal.
    apply set_map_compose. intros x. apply mod12_it.
Qed.

Lemma transpose_invert_compose_witness :
  (let* _ := PCSet.i_n 1%positive 3 in PCSet.i_n 1%positive 10)%M
    {[1%positive := Obj {[0; 4; 7]}]}
  = PCSet.t_n 1%positive ((10 - 3) mod 12) {[1%positive := Obj {[0; 4; 7]}]}.
Proof.
  refine (proj1 (proj2 (transpose_invert_compose {[1%positive := Obj {[0; 4; 7]}]}
                          1%positive (Obj {[0; 4; 7]}) 3 10 eq_refl _ _)));
    unfold in_range; lia.
Defined.

Lemma size_set_map_inj (g : Z → Z) (s : gset Z) :
  (∀ x y, x ∈ s → y ∈ s → g x = g y → x = y) →
  size (set_map g s : gset Z) = size s.
Proof.
  intros Hinj. unfold size, set_size. simpl.
  by rewrite (elements_set_map g s Hinj), length_fmap.
Qed.

Lemma invert_inj n x y :
  in_range x → in_range y → (n - x) mod 12 = (n - y) mod 12 → x = y.
Proof.
  unfold in_range. intros Hx Hy Heq.
  pose proof (Z.div_mod (n - x) 12 ltac:(lia)).
  pose proof (Z.div_mod (n - y) 12 ltac:(lia)). lia.
Qed.

(** X4: on an instance whose elements lie in [0,11], [t_n] and [i_n] with a
    valid argument keep the cardinality, and [t_n(0)] changes nothing. *)
Theorem transpose_invert_cardinality (h : store) (self : loc) (o : obj) (n : Z) :
  h !! self = Some o →
  pcs_ok (_pcs o) →
  in_range n →
  (let* _ := PCSet.t_n self n in PCSet.__len__ self)%M h
    = (inr (Z.of_nat (size (_pcs o))), (PCSet.t_n self n h).2) ∧
  (let* _ := PCSet.i_n self n in PCSet.__len__ self)%M h
    = (inr (Z.of_nat (size (_pcs o))), (PCSet.i_n self n h).2) ∧
  PCSet.t_n self 0 h = (inr tt, h).
Proof.
  intros Hself Hok Hn. split_and!; unfold bind.
  - rewrite (t_n_run h self o n) by done.
    rewrite (len_run _ self (Obj (set_map (λ pc, (pc + n) mod 12) (_pcs o))))
      by apply lookup_insert_eq.
    simpl. rewrite size_set_map_inj; [done|].
    intros x y Hx Hy. apply transpose_inj; by apply Hok.
  - rewrite (i_n_run h self o n) by done.
    rewrite (len_run _ self (Obj (set_map (λ pc, (n - pc) mod 12) (_pcs o))))
      by apply lookup_insert_eq.
    simpl. rewrite size_set_map_inj; [done|].
    intros x y Hx Hy. apply invert_inj; by apply Hok.
  - rewrite (t_n_run h self o 0) by (done || (unfold in_range; lia)).
    f_equal. apply (insert_same h self o); [done|].
    apply set_eq. intros x. rewrite elem_of_map. split.
    + intros (y & -> & Hy). rewrite Z.add_0_r, Z.mod_small; [done|].
      specialize (Hok y Hy). unfold in_range in Hok. lia.
    + intros Hx. exists x. split; [|done].
      rewrite Z.add_0_r, Z.mod_small; [done|].
      specialize (Hok x Hx). unfold in_range in Hok. lia.
Qed.

Lemma transpose_invert_cardinality_witness :
  PCSet.t_n 1%positive 0 {[1%positive := Obj {[0; 4; 7]}]}
  = (inr tt, {[1%positive := Obj {[0; 4; 7]}]}).
Proof.
  refine (proj2 (proj2 (transpose_invert_cardinality {[1%positive := Obj {[0; 4; 7]}]}
                          1%positive (Obj {[0; 4; 7]}) 0 eq_refl _ _))).
  - intros x Hx. simpl in Hx. unfold in_range.
    rewrite !elem_of_union, !elem_of_singleton in Hx. lia.
  - unfold in_range. lia.
Defined.

(** ** Other instances are never touched *)

(** X5: [add_pc], [remove_pc], [t_n] and [i_n] leave every instance other
    than their receiver as it is, whatever the argument and whether they
    raise or not. *)
Theorem mutators_frame (h : store) (self l : loc) (n : Z) :
  l ≠ self →
  (PCSet.add_pc self n h).2 !! l = h !! l ∧
  (PCSet.remove_pc self n h).2 !! l = h !! l ∧
  (PCSet.t_n self n h).2 !! l = h !! l ∧
  (PCSet.i_n self n h).2 !! l = h !! l.
Proof.
  intros Hne. split_and!; run.
  - destruct (h !! self) as [o|]; simpl; [|done].
    destruct (PCSet._check_n n); simpl; [done|]. by rewrite lookup_insert_ne.
  - destruct (h !! self) as [o|]; simpl; [|done].
    destruct (set_remove (_pcs o) n) as [[]|]; simpl; try done.
    by rewrite lookup_insert_ne.
  - destruct (PCSet._check_n n); simpl; [done|].
    destruct (h !! self) as [o|]; simpl; [|done]. by rewrite lookup_insert_ne.
  - destruct (PCSet._check_n n); simpl; [done|].
    destruct (h !! self) as [o|]; simpl; [|done]. by rewrite lookup_insert_ne.
Qed.

Lemma mutators_frame_witness :
  (PCSet.t_n 1%positive 5 {[1%positive := Obj {[0; 4]}; 2%positive := Obj {[3]}]}).2
    !! 2%positive
  = ({[1%positive := Obj {[0; 4]}; 2%positive := Obj {[3]}]} : store) !! 2%positive.
Proof.
  refine (proj1 (proj2 (proj2 (mutators_frame _ 1%positive 2%positive 5 _)))).
  discriminate.
Defined.

(** ** Construction *)

Lemma size_list_to_set_remove_dups (l : list Z) :
  size (list_to_set l : gset Z) = length (remove_dups l).
Proof.
  assert ((list_to_set l : gset Z) = list_to_set (remove_dups l)) as ->.
  { apply set_eq. intros x. by rewrite !elem_of_list_to_set, elem_of_remove_dups. }
  apply size_list_to_set, NoDup_remove_dups.
Qed.

(** X6: a construction from valid arguments returns a fresh instance whose
    elements are exactly the arguments; repeated arguments count once, so
    the cardinality is the number of distinct arguments, and two argument
    lists with the same members, in any order and multiplicity, build the
    same instance. *)
Theorem constructor_contents (h : store) (pcs pcs' : list Z) :
  Forall in_range pcs →
  ∃ r o,
    h !! r = None ∧
    PCSet.new pcs h = (inr r, <[r := o]> h) ∧
    (∀ x, x ∈ _pcs o ↔ x ∈ pcs) ∧
    (let* self := PCSet.new pcs in PCSet.__len__ self)%M h
      = (inr (Z.of_nat (length (remove_dups pcs))), <[r := o]> h) ∧
    ((∀ x, x ∈ pcs' ↔ x ∈ pcs) → PCSet.new pcs' h = PCSet.new pcs h).
Proof.
  intros Hall. exists (fresh (dom h)), (Obj (list_to_set pcs)). split_and!.
  - apply fresh_lookup.
  - by apply new_in.
  - intros x. simpl. apply elem_of_list_to_set.
  - unfold bind. rewrite new_in by done.
    rewrite (len_run _ _ (Obj (list_to_set pcs))) by apply lookup_insert_eq.
    simpl. by rewrite size_list_to_set_remove_dups.
  - intros Hsame. rewrite !new_in; try done.
    + do 3 f_equal. apply set_eq. intros x. by rewrite !elem_of_list_to_set.
    + apply Forall_forall. intros x Hx. apply Hsame in Hx.
      by eapply Forall_forall in Hall.
Qed.

Lemma constructor_contents_witness :
  PCSet.new [4; 0; 4; 0] ∅ = PCSet.new [0; 4] ∅.
Proof.
  destruct (constructor_contents ∅ [0; 4] [4; 0; 4; 0]) as (r & o & _ & _ & _ & _ & Hsame).
  - repeat constructor; unfold in_range; lia.
  - apply Hsame. intros x. rewrite !elem_of_cons, elem_of_nil. tauto.
Defined.

(** ** Results of the set methods are independent instances *)

(** X7: the instance returned by [union], [intersection] or [difference]
    shares nothing with the operands: mutating the result leaves both
    operands as they were, and mutating an operand afterwards leaves the
    result as it was. *)
Theorem set_algebra_result_independent
    (h : store) (a b : loc) (A B : obj) (pc n : Z) :
  h !! a = Some A →
  h !! b = Some B →
  in_range pc →
  in_range n →
  ((let* c := PCSet.union a b in
    let* _ := PCSet.add_pc c pc in
    let* x := getattr_pcs a in
    let* y := getattr_pcs b in ret (x, y))%M h).1 = inr (_pcs A, _pcs B) ∧
  ((let* c := PCSet.intersection a b in
    let* _ := PCSet.add_pc c pc in
    let* x := getattr_pcs a in
    let* y := getattr_pcs b in ret (x, y))%M h).1 = inr (_pcs A, _pcs B) ∧
  ((let* c := PCSet.difference a b in
    let* _ := PCSet.add_pc c pc in
    let* x := getattr_pcs a in
    let* y := getattr_pcs b in ret (x, y))%M h).1 = inr (_pcs A, _pcs B) ∧
  ((let* c := PCSet.union a b in
    let* _ := PCSet.t_n a n in
    let* _ := PCSet.add_pc b pc in
    getattr_pcs c)%M h).1 = inr (_pcs A ∪ _pcs B) ∧
  ((let* c := PCSet.intersection a b in
    let* _ := PCSet.t_n a n in
    let* _ := PCSet.add_pc b pc in
    getattr_pcs c)%M h).1 = inr (_pcs A ∩ _pcs B) ∧
  ((let* c := PCSet.difference a b in
    let* _ := PCSet.t_n a n in
    let* _ := PCSet.add_pc b pc in
    getattr_pcs c)%M h).1 = inr (_pcs A ∖ _pcs B).
Proof.
  intros Ha Hb Hpc Hn. pose proof (fresh_lookup h) as Hfresh.
  set (r := fresh (dom h)) in *.
  assert (a ≠ r) as Har by congruence. assert (b ≠ r) as Hbr by congruence.
  assert (∀ s s', let h1 := <[r := Obj s']> (<[r := Obj s]> h) in
                  h1 !! a = Some A ∧ h1 !! b = Some B) as Hkeep.
  { intros s s'. simpl. by rewrite !lookup_insert_ne by done. }
  assert (∀ s (c : store → (exception + loc) * store),
            c h = (inr r, <[r := Obj s]> h) →
            ((let* c := c in
              let* _ := PCSet.add_pc c pc in
              let* x := getattr_pcs a in
              let* y := getattr_pcs b in ret (x, y))%M h).1 = inr (_pcs A, _pcs B)) as Hmut.
  { intros s c Hc. unfold bind at 1. rewrite Hc.
    unfold bind at 1. rewrite (add_pc_run _ r (Obj s) pc) by (done || apply lookup_insert_eq).
    destruct (Hkeep s ({[pc]} ∪ s)) as [Ha' Hb']. simpl in Ha', Hb'.
    run. by rewrite Ha', Hb'. }
  assert (∀ s (c : store → (exception + loc) * store),
            c h = (inr r, <[r := Obj s]> h) →
            ((let* c := c in
              let* _ := PCSet.t_n a n in
              let* _ := PCSet.add_pc b pc in
              getattr_pcs c)%M h).1 = inr s) as Hop.
  { intros s c Hc. unfold bind at 1. rewrite Hc.
    set (h1 := <[r := Obj s]> h).
    assert (h1 !! a = Some A) as Ha1 by (unfold h1; by rewrite lookup_insert_ne).
    unfold bind at 1. rewrite (t_n_run h1 a A n) by done.
    set (h2 := <[a := _]> h1).
    assert (∃ B', h2 !! b = Some B') as [B' Hb2].
    { unfold h2. destruct (decide (a = b)) as [->|Hab].
      - eexists. apply lookup_insert_eq.
      - exists B. unfold h1. by rewrite !lookup_insert_ne. }
    unfold bind at 1. rewrite (add_pc_run h2 b B' pc) by done.
    run. rewrite lookup_insert_ne by done. unfold h2.
    rewrite lookup_insert_ne by done. unfold h1. by rewrite lookup_insert_eq. }
  split_and!.
  - eapply Hmut. by apply union_run.
  - eapply Hmut. by apply intersection_run.
  - eapply Hmut. by apply difference_run.
  - apply Hop. by apply union_run.
  - apply Hop. by apply intersection_run.
  - apply Hop. by apply difference_run.
Qed.

Lemma set_algebra_result_independent_witness :
  ((let* c := PCSet.union 1%positive 1%positive in
    let* _ := PCSet.t_n 1%positive 3 in
    let* _ := PCSet.add_pc 1%positive 9 in
    getattr_pcs c)%M {[1%positive := Obj {[0; 4]}]}).1
  = inr ({[0; 4]} ∪ {[0; 4]}).
Proof.
  refine (proj1 (proj2 (proj2 (proj2
    (set_algebra_result_independent {[1%positive := Obj {[0; 4]}]} 1%positive 1%positive
       (Obj {[0; 4]}) (Obj {[0; 4]}) 9 3 _ _ _ _))))); try reflexivity;
    unfold in_range; lia.
Defined.

(** ** Subset and superset tests *)

Lemma issubset_run (h : store) a b A B :
  h !! a = Some A → h !! b = Some B →
  PCSet.issubset a b h = (inr (bool_decide (_pcs A ⊆ _pcs B)), h).
Proof. intros Ha Hb. run. by rewrite Ha, Hb. Qed.

(** X8: [issubset] and [issuperset] change nothing in the store and are
    converse to each other; every instance is a subset of itself; two
    instances that are subsets of each other have the same elements; the
    result of [intersection] is a subset of both operands, that of
    [difference] a subset of the receiver, and each operand a subset of the
    result of [union]. *)
Theorem subset_tests (h : store) (a b : loc) (A B : obj) :
  h !! a = Some A →
  h !! b = Some B →
  PCSet.issubset a b h = (inr (bool_decide (_pcs A ⊆ _pcs B)), h) ∧
  PCSet.issuperset a b h = PCSet.issubset b a h ∧
  PCSet.issubset a a h = (inr true, h) ∧
  (PCSet.issubset a b h = (inr true, h) → PCSet.issubset b a h = (inr true, h) →
     _pcs A = _pcs B) ∧
  ((let* i := PCSet.intersection a b in
    let* x := PCSet.issubset i a in
    let* y := PCSet.issubset i b in ret (x, y))%M h).1 = inr (true, true) ∧
  ((let* d := PCSet.difference a b in PCSet.issubset d a)%M h).1 = inr true ∧
  ((let* u := PCSet.union a b in
    let* x := PCSet.issubset a u in
    let* y := PCSet.issubset b u in ret (x, y))%M h).1 = inr (true, true).
Proof.
  intros Ha Hb. pose proof (fresh_lookup h) as Hfresh.
  set (r := fresh (dom h)) in *.
  assert (a ≠ r) as Har by congruence. assert (b ≠ r) as Hbr by congruence.
  assert (∀ s, <[r := Obj s]> h !! a = Some A ∧ <[r := Obj s]> h !! b = Some B
               ∧ <[r := Obj s]> h !! r = Some (Obj s)) as Hkeep.
  { intros s. rewrite !lookup_insert_ne by done. by rewrite lookup_insert_eq. }
  split_and!.
  - by apply issubset_run.
  - run. rewrite Ha, Hb. simpl. by rewrite Ha.
  - rewrite (issubset_run h a a A A) by done. by rewrite bool_decide_true.
  - rewrite (issubset_run h a b A B), (issubset_run h b a B A) by done.
    intros Hab Hba. injection Hab as Hab. injection Hba as Hba.
    apply bool_decide_eq_true in Hab, Hba. apply set_eq. intros x. split; auto.
  - unfold bind at 1. rewrite (intersection_run h a b A B) by done. fold r.
    destruct (Hkeep (_pcs A ∩ _pcs B)) as (Ha' & Hb' & Hr').
    unfold bind at 1. rewrite (issubset_run _ r a _ A Hr' Ha').
    unfold bind at 1. rewrite (issubset_run _ r b _ B Hr' Hb').
    simpl. rewrite !bool_decide_true; [done| |];
      intros x Hx; apply elem_of_intersection in Hx; tauto.
  - unfold bind at 1. rewrite (difference_run h a b A B) by done. fold r.
    destruct (Hkeep (_pcs A ∖ _pcs B)) as (Ha' & Hb' & Hr').
    rewrite (issubset_run _ r a _ A Hr' Ha').
    simpl. rewrite bool_decide_true; [done|].
    intros x Hx; apply elem_of_difference in Hx; tauto.
  - unfold bind at 1. rewrite (union_run h a b A B) by done. fold r.
    destruct (Hkeep (_pcs A ∪ _pcs B)) as (Ha' & Hb' & Hr').
    unfold bind at 1. rewrite (issubset_run _ a r A _ Ha' Hr').
    unfold bind at 1. rewrite (issubset_run _ b r B _ Hb' Hr').
    simpl. rewrite !bool_decide_true; [done| |];
      intros x Hx; apply elem_of_union; tauto.
Qed.

Lemma subset_tests_witness :
  PCSet.issuperset 1%positive 2%positive
    {[1%positive := Obj {[0; 4]}; 2%positive := Obj {[4]}]}
  = PCSet.issubset 2%positive 1%positive
      {[1%positive := Obj {[0; 4]}; 2%positive := Obj {[4]}]}.
Proof.
  refine (proj1 (proj2 (subset_tests _ 1%positive 2%positive (Obj {[0; 4]}) (Obj {[4]}) _ _)));
    reflexivity.
Defined.

(** ** Rotation of a list *)

Lemma rotate_list_clamp {A} (l : list A) (i : Z) :
  PCSet._rotate_list l i
  = drop (Py.clamp (Z.of_nat (length l)) i) l ++ take (Py.clamp (Z.of_nat (length l)) i) l.
Proof. done. Qed.

Lemma rotate_list_perm {A} (l : list A) (i : Z) : PCSet._rotate_list l i ≡ₚ l.
Proof.
  rewrite rotate_list_clamp.
  rewrite (comm (++)). by rewrite take_drop.
Qed.

(** X9: [_rotate_list] never loses or repeats an element, whatever the
    index: the result is a permutation of the input of the same length.  An
    index of 0, one at or beyond the length, or one at or below minus the
    length returns the list unchanged; a negative index counts from the
    end; an index within the list moves that many leading elements to the
    back. *)
Theorem rotate_list_any_index {A} (l : list A) (i : Z) :
  PCSet._rotate_list l i ≡ₚ l ∧
  length (PCSet._rotate_list l i) = length l ∧
  (i = 0 ∨ Z.of_nat (length l) ≤ i ∨ i ≤ - Z.of_nat (length l) →
     PCSet._rotate_list l i = l) ∧
  (- Z.of_nat (length l) ≤ i < 0 →
     PCSet._rotate_list l i = PCSet._rotate_list l (i + Z.of_nat (length l))) ∧
  (0 ≤ i ≤ Z.of_nat (length l) →
     PCSet._rotate_list l i = drop (Z.to_nat i) l ++ take (Z.to_nat i) l).
Proof.
  split_and!.
  - apply rotate_list_perm.
  - by rewrite rotate_list_perm.
  - intros Hi. rewrite rotate_list_clamp. unfold Py.clamp, Py.norm_index.
    destruct (decide (i < 0)) as [Hneg|Hpos].
    + assert (Z.to_nat (Z.min (Z.of_nat (length l)) (Z.max 0 (i + Z.of_nat (length l)))) = 0%nat)
        as -> by lia.
      by rewrite drop_0, take_0, app_nil_r.
    + destruct (decide (i = 0)) as [->|Hnz].
      * replace (Z.to_nat (Z.min (Z.of_nat (length l)) (Z.max 0 0))) with 0%nat by lia.
        by rewrite drop_0, take_0, app_nil_r.
      * assert (Z.to_nat (Z.min (Z.of_nat (length l)) (Z.max 0 i)) = length l) as -> by lia.
        by rewrite drop_all, firstn_all.
  - intros Hi. rewrite !rotate_list_clamp. unfold Py.clamp, Py.norm_index.
    destruct (decide (i < 0)) as [_|?]; [|lia].
    destruct (decide (i + Z.of_nat (length l) < 0)) as [?|_]; [lia|]. done.
  - intros Hi. rewrite rotate_list_clamp. unfold Py.clamp, Py.norm_index.
    destruct (decide (i < 0)) as [?|_]; [lia|].
    by replace (Z.to_nat (Z.min (Z.of_nat (length l)) (Z.max 0 i))) with (Z.to_nat i) by lia.
Qed.

Lemma rotate_list_any_index_witness :
  PCSet._rotate_list [1; 2; 3; 4] (-1) = PCSet._rotate_list [1; 2; 3; 4] (-1 + 4).
Proof.
  refine (proj1 (proj2 (proj2 (proj2 (rotate_list_any_index [1; 2; 3; 4] (-1))))) _).
  simpl. lia.
Defined.

(** ** Contents of the normal order *)

Lemma normal_order_perm (s : gset Z) (it no : list Z) :
  Py.iterates s it → PCSet.normal_order it = inr no → no ≡ₚ elements s.
Proof.
  intros Hit Hno. unfold PCSet.normal_order in Hno.
  destruct (Py.min _) as [?|m]; [done|]. cbn [rbind] in Hno.
  destruct (Py.index _ _) as [?|idx]; [done|]. cbn [rbind] in Hno.
  injection Hno as <-. by rewrite rotate_list_perm, sorted_Permutation.
Qed.

Lemma normal_order_total (s : gset Z) (it : list Z) :
  Py.iterates s it → s ≠ ∅ → ∃ no, PCSet.normal_order it = inr no.
Proof.
  intros Hit Hne.
  destruct (argmin_spec
              (λ pc_a, Py.sum ((λ pc_b, Py.shl1 ((pc_b - pc_a) mod 12)) <$> Py.sorted it))
              (Py.sorted it))
    as (m & i & a & Hmin & Hidx & _).
  { eapply sorted_nonempty, iterates_nonempty; eauto. }
  eexists. unfold PCSet.normal_order. rewrite Hmin. cbn [rbind]. rewrite Hidx. done.
Qed.

(** X10: the normal order of a non-empty set lists every element of the
    set exactly once and nothing else, so its length is the cardinality;
    the normal order of a one-element set is that element alone. *)
Theorem normal_order_contents (self : obj) (it : list Z) :
  Py.iterates (_pcs self) it →
  _pcs self ≠ ∅ →
  ∃ no,
    PCSet.normal_order it = inr no ∧
    NoDup no ∧
    (∀ x, x ∈ no ↔ x ∈ _pcs self) ∧
    length no = size (_pcs self) ∧
    (∀ x, _pcs self = {[x]} → no = [x]).
Proof.
  intros Hit Hne. destruct (normal_order_total _ _ Hit Hne) as [no Hno].
  pose proof (normal_order_perm _ _ _ Hit Hno) as Hperm.
  exists no. split_and!; [done| | | |].
  - rewrite Hperm. apply NoDup_elements.
  - intros x. by rewrite Hperm, elem_of_elements.
  - by rewrite Hperm.
  - intros x Hx. rewrite Hx, elements_singleton in Hperm.
    by apply Permutation_singleton_r in Hperm.
Qed.

Lemma normal_order_contents_witness :
  ∃ no, PCSet.normal_order (elements ({[7]} : gset Z)) = inr no ∧ no = [7].
Proof.
  destruct (normal_order_contents (Obj {[7]}) (elements ({[7]} : gset Z)))
    as (no & Hno & _ & _ & _ & Hone).
  - apply iterates_elements.
  - simpl. intros Hs. assert (7 ∈ (∅ : gset Z)) as Hx; [|by apply elem_of_empty in Hx].
    rewrite <- Hs. by apply elem_of_singleton.
  - exists no. split; [done|]. by apply (Hone 7).
Defined.

(** ** The descriptors depend on the set only *)

(** X11: the order in which a set yields its elements does not show in
    the descriptors: two enumerations of the same set give the same normal
    order and the same text, and, for a set within [0,11], the same prime
    form and the same interval-class vector. *)
Theorem descriptors_iteration_independent (s : gset Z) (it1 it2 inv1 inv2 : list Z) :
  Py.iterates s it1 →
  Py.iterates s it2 →
  Py.iterates (PCSet.inverted_pcs s) inv1 →
  Py.iterates (PCSet.inverted_pcs s) inv2 →
  PCSet.normal_order it1 = PCSet.normal_order it2 ∧
  PCSet.__str__ it1 = PCSet.__str__ it2 ∧
  (pcs_ok s →
     PCSet.prime_form it1 inv1 = PCSet.prime_form it2 inv2 ∧
     PCSet.interval_class_vector it1 = PCSet.interval_class_vector it2).
Proof.
  intros H1 H2 Hi1 Hi2.
  assert (PCSet.normal_order it1 = PCSet.normal_order it2) as Hno.
  { by rewrite (normal_order_iterates s it1), (normal_order_iterates s it2). }
  split_and!; [done| |].
  - unfold PCSet.__str__. by rewrite Hno.
  - intros Hok. split.
    + by rewrite (prime_form_iterates s it1 inv1), (prime_form_iterates s it2 inv2).
    + by rewrite (interval_class_vector_value s it1), (interval_class_vector_value s it2).
Qed.

Lemma descriptors_iteration_independent_witness :
  PCSet.normal_order [9; 4; 0] = PCSet.normal_order [0; 9; 4].
Proof.
  refine (proj1 (descriptors_iteration_independent (list_to_set [0; 4; 9])
                   [9; 4; 0] [0; 9; 4]
                   (elements (PCSet.inverted_pcs (list_to_set [0; 4; 9])))
                   (elements (PCSet.inverted_pcs (list_to_set [0; 4; 9]))) _ _ _ _));
    try apply iterates_elements;
    (unfold Py.iterates; apply NoDup_Permutation;
     [compute_done|apply NoDup_elements|]);
    intros x; rewrite elem_of_elements, elem_of_list_to_set, !elem_of_cons, elem_of_nil;
    tauto.
Defined.

(** ** Shape of the prime form *)

Lemma candidate_shape (s : gset Z) (a : Z) :
  pcs_ok s → a ∈ s →
  Spec.candidate s a !! 0%nat = Some 0 ∧
  Sorted Z.lt (Spec.candidate s a) ∧
  Forall in_range (Spec.candidate s a) ∧
  length (Spec.candidate s a) = size s.
Proof.
  intros Hok Ha. unfold Spec.candidate.
  set (l := (λ b, (b - a) mod 12) <$> elements s).
  assert (Forall in_range (Py.sorted l)) as Hrange.
  { rewrite sorted_Permutation. apply Forall_fmap, Forall_true. intros b.
    apply mod12_in_range. }
  assert (NoDup l) as Hnd.
  { apply NoDup_fmap_2_strong; [|apply NoDup_elements].
    intros b b' Hb Hb'. apply residue_inj; by apply Hok, elem_of_elements. }
  assert (0 ∈ Py.sorted l) as H0.
  { rewrite sorted_Permutation. apply list_elem_of_fmap. exists a.
    split; [by rewrite Z.sub_diag|by apply elem_of_elements]. }
  split_and!; [|by apply sorted_lt|done|].
  - pose proof (sorted_StronglySorted l) as Hs.
    destruct (Py.sorted l) as [|x t]; [by apply elem_of_nil in H0|].
    simpl. f_equal.
    apply Forall_cons in Hrange as [Hx _].
    apply StronglySorted_inv in Hs as [_ Hall].
    apply elem_of_cons in H0 as [->|H0]; [done|].
    eapply Forall_forall in Hall; [|done]. unfold in_range in Hx. lia.
  - rewrite sorted_Permutation. unfold l. by rewrite length_fmap.
Qed.

(** The prime form is a candidate of the set or of its inversion. *)
Lemma prime_form_candidate (s : gset Z) (it it_inv : list Z) :
  Py.iterates s it → Py.iterates (PCSet.inverted_pcs s) it_inv → s ≠ ∅ →
  (∃ a, a ∈ s ∧ PCSet.prime_form it it_inv = inr (Spec.candidate s a)) ∨
  (∃ a, a ∈ PCSet.inverted_pcs s ∧
        PCSet.prime_form it it_inv = inr (Spec.candidate (PCSet.inverted_pcs s) a)).
Proof.
  intros Hit Hinv Hne.
  destruct (side_select _ _ Hit Hne) as (a & mt & i & Ha & Hmint & Hidxt & Hgett & _).
  destruct (side_select _ _ Hinv (inverted_nonempty _ Hne))
    as (a' & mi & j & Ha' & Hmini & Hidxi & Hgeti & _).
  unfold PCSet.prime_form. rewrite Hmint, Hmini. cbn [rbind].
  case_decide.
  - left. exists a. rewrite Hidxt. cbn [rbind]. by rewrite Hgett.
  - right. exists a'. rewrite Hidxi. cbn [rbind]. by rewrite Hgeti.
Qed.

Lemma size_inverted (s : gset Z) : pcs_ok s → size (PCSet.inverted_pcs s) = size s.
Proof.
  intros Hok. apply size_set_map_inj.
  intros x y Hx Hy. apply negate_inj; by apply Hok.
Qed.

(** X12: the prime form of a non-empty set within [0,11] begins with 0, is
    strictly increasing, has its entries in [0,11], and has as many entries
    as the set has elements. *)
Theorem prime_form_shape (self : obj) (it it_inv : list Z) :
  Py.iterates (_pcs self) it →
  Py.iterates (PCSet.inverted_pcs (_pcs self)) it_inv →
  pcs_ok (_pcs self) →
  _pcs self ≠ ∅ →
  ∃ pf,
    PCSet.prime_form it it_inv = inr pf ∧
    pf !! 0%nat = Some 0 ∧
    Sorted Z.lt pf ∧
    Forall in_range pf ∧
    length pf = size (_pcs self).
Proof.
  intros Hit Hinv Hok Hne.
  destruct (prime_form_candidate _ _ _ Hit Hinv Hne) as [(a & Ha & Hpf)|(a & Ha & Hpf)].
  - exists (Spec.candidate (_pcs self) a).
    destruct (candidate_shape (_pcs self) a Hok Ha) as (? & ? & ? & ?). done.
  - exists (Spec.candidate (PCSet.inverted_pcs (_pcs self)) a).
    destruct (candidate_shape _ a (pcs_ok_inverted (_pcs self)) Ha) as (? & ? & ? & Hlen).
    rewrite size_inverted in Hlen by done. done.
Qed.

Lemma prime_form_shape_witness :
  ∃ pf, PCSet.prime_form (elements ({[2; 5; 9]} : gset Z))
          (elements (PCSet.inverted_pcs {[2; 5; 9]})) = inr pf ∧
        pf !! 0%nat = Some 0.
Proof.
  destruct (prime_form_shape (Obj {[2; 5; 9]}) (elements ({[2; 5; 9]} : gset Z))
              (elements (PCSet.inverted_pcs {[2; 5; 9]})))
    as (pf & Hpf & Hhead & _).
  - apply iterates_elements.
  - apply iterates_elements.
  - intros x Hx. simpl in Hx. unfold in_range.
    rewrite !elem_of_union, !elem_of_singleton in Hx. lia.
  - simpl. intros Hs. assert (2 ∈ (∅ : gset Z)) as Hx; [|by apply elem_of_empty in Hx].
    rewrite <- Hs. rewrite !elem_of_union, !elem_of_singleton. lia.
  - by exists pf.
Defined.

(** ** Prime form and inversion *)

Lemma bit_score_inj_across l l' c c' :
  NoDup l → Forall in_range l → NoDup l' → Forall in_range l' →
  c ∈ candidates l → c' ∈ candidates l' →
  bit_score c = bit_score c' → c = c'.
Proof.
  intros Hnd Hr Hnd' Hr' Hc Hc' Heq. cbn beta in Heq.
  rewrite !code_weight in Heq by (by eapply candidates_nonneg).
  apply weight_inj; eauto using candidates_sorted, candidates_NoDup, candidates_nonneg.
Qed.

Lemma candidates_nonempty l : l ≠ [] → candidates l ≠ [].
Proof. by destruct l. Qed.

(** Two runs of [prime_form] in which the candidates of the set and those
    of the inversion have changed sides return the same result. *)
Lemma prime_form_swap it1 inv1 it2 inv2 :
  NoDup it1 → Forall in_range it1 →
  NoDup inv1 → Forall in_range inv1 →
  it1 ≠ [] → inv1 ≠ [] →
  (∀ c, c ∈ candidates it1 ↔ c ∈ candidates inv2) →
  (∀ c, c ∈ candidates inv1 ↔ c ∈ candidates it2) →
  PCSet.prime_form it1 inv1 = PCSet.prime_form it2 inv2.
Proof.
  intros Hnd1 Hr1 Hndi Hri Hne1 Hnei Hti Hit. unfold PCSet.prime_form.
  set (t1 := candidates it1) in *. set (t2 := candidates it2) in *.
  set (i1 := candidates inv1) in *. set (i2 := candidates inv2) in *.
  assert (t1 ≠ []) as Ht1 by by apply candidates_nonempty.
  assert (i1 ≠ []) as Hi1 by by apply candidates_nonempty.
  assert (i2 ≠ []) as Hi2.
  { intros Hi2. rewrite Hi2 in Hti. apply Ht1, same_members_nil. intros c. by rewrite Hti. }
  assert (t2 ≠ []) as Ht2.
  { intros Ht2. rewrite Ht2 in Hit. apply Hi1, same_members_nil. intros c. by rewrite Hit. }
  destruct (select_spec t1 Ht1) as (m1 & k1 & c1 & Hmin1 & Hidx1 & Hget1 & Hin1 & Hm1 & Hl1).
  destruct (select_spec i1 Hi1) as (n1 & j1 & d1 & Hmini1 & Hidxi1 & Hgeti1 & Hini1 & Hn1 & Hli1).
  destruct (select_spec t2 Ht2) as (m2 & k2 & c2 & Hmin2 & Hidx2 & Hget2 & Hin2 & Hm2 & Hl2).
  destruct (select_spec i2 Hi2) as (n2 & j2 & d2 & Hmini2 & Hidxi2 & Hgeti2 & Hini2 & Hn2 & Hli2).
  assert (d1 = c2) as <-.
  { apply (select_unique i1 t2); try done. intros c c'. by apply bit_score_inj. }
  assert (c1 = d2) as <-.
  { apply (select_unique t1 i2); try done. intros c c'. by apply bit_score_inj. }
  assert (m2 = n1) as -> by congruence.
  assert (n2 = m1) as -> by congruence.
  rewrite Hmin1, Hmini1, Hmin2, Hmini2. cbn [rbind].
  destruct (decide (m1 ≤ n1)) as [Hle|Hgt]; destruct (decide (n1 ≤ m1)) as [Hle'|Hgt'].
  - rewrite Hidx1, Hidx2. cbn [rbind]. rewrite Hget1, Hget2. f_equal.
    apply (bit_score_inj_across it1 inv1); try done. cbn beta in *. lia.
  - rewrite Hidx1, Hidxi2. cbn [rbind]. by rewrite Hget1, Hgeti2.
  - rewrite Hidxi1, Hidx2. cbn [rbind]. by rewrite Hgeti1, Hget2.
  - lia.
Qed.

Lemma inverted_index_residue n a b :
  ((n - b) mod 12 - (n - a) mod 12) mod 12 = (a - b) mod 12.
Proof. rewrite <- Zminus_mod. f_equal. lia. Qed.

Lemma inverted_inverted_index_residue n a b :
  ((- ((n - b) mod 12)) mod 12 - (- ((n - a) mod 12)) mod 12) mod 12 = (b - a) mod 12.
Proof. rewrite inverted_residue, inverted_index_residue. done. Qed.

Lemma iterates_index_inverted (s : gset Z) n it it' :
  pcs_ok s → Py.iterates s it →
  Py.iterates (set_map (λ pc, (n - pc) mod 12) s) it' →
  it' ≡ₚ (λ pc, (n - pc) mod 12) <$> it.
Proof.
  intros Hok Hit Hit'. unfold Py.iterates in *.
  rewrite Hit', Hit. apply elements_set_map.
  intros x y Hx Hy. apply invert_inj; by apply Hok.
Qed.

Lemma prime_form_index_inverted (s : gset Z) n it it_inv it' it_inv' :
  pcs_ok s →
  Py.iterates s it →
  Py.iterates (PCSet.inverted_pcs s) it_inv →
  Py.iterates (set_map (λ pc, (n - pc) mod 12) s) it' →
  Py.iterates (PCSet.inverted_pcs (set_map (λ pc, (n - pc) mod 12) s)) it_inv' →
  PCSet.prime_form it' it_inv' = PCSet.prime_form it it_inv.
Proof.
  intros Hok Hit Hinv Hit' Hinv'.
  assert (pcs_ok (set_map (λ pc, (n - pc) mod 12) s)) as Hok'.
  { apply pcs_ok_set_map. intros. apply mod12_in_range. }
  pose proof (iterates_index_inverted s n it it' Hok Hit Hit') as Hp'.
  pose proof (iterates_inverted s it it_inv Hok Hit Hinv) as Hpi.
  pose proof (iterates_inverted _ it' it_inv' Hok' Hit' Hinv') as Hpi'.
  rewrite Hp', <- list_fmap_compose in Hpi'.
  destruct (decide (it = [])) as [->|Hne].
  { apply Permutation_nil_r in Hp' as ->. apply Permutation_nil_r in Hpi as ->.
    by apply Permutation_nil_r in Hpi' as ->. }
  assert (it' ≠ []) as Hne'.
  { intros ->. symmetry in Hp'. apply Permutation_nil_r in Hp'. by destruct it. }
  assert (it_inv' ≠ []) as Hnei'.
  { intros ->. symmetry in Hpi'. apply Permutation_nil_r in Hpi'. by destruct it. }
  apply prime_form_swap; try done.
  - by eapply iterates_NoDup.
  - by eapply iterates_in_range.
  - by eapply iterates_NoDup.
  - eapply iterates_in_range; [apply pcs_ok_inverted|done].
  - intros c.
    rewrite (candidates_members _ (λ a b, (a - b) mod 12) it it' Hp');
      [|intros; apply inverted_index_residue].
    rewrite (candidates_members _ (λ a b, (a - b) mod 12) it it_inv Hpi);
      [done|intros; apply inverted_residue].
  - intros c.
    rewrite (candidates_members _ (λ a b, (b - a) mod 12) it it_inv' Hpi');
      [|intros; apply inverted_inverted_index_residue].
    rewrite (candidates_members id (λ a b, (b - a) mod 12) it it);
      [done|by rewrite list_fmap_id|done].
Qed.

(** X13: on an instance whose elements lie in [0,11], and for [n] in
    [0,11], the prime form after [i_n(n)] equals the prime form before the
    call: the prime form does not tell a set from its inversions. *)
Theorem prime_form_inversion_invariant
    (h : store) (self : loc) (o : obj) (n : Z) (it it_inv : list Z) :
  h !! self = Some o →
  pcs_ok (_pcs o) →
  in_range n →
  Py.iterates (_pcs o) it →
  Py.iterates (PCSet.inverted_pcs (_pcs o)) it_inv →
  ∃ o', PCSet.i_n self n h = (inr tt, <[self := o']> h) ∧
        ∀ it' it_inv',
          Py.iterates (_pcs o') it' →
          Py.iterates (PCSet.inverted_pcs (_pcs o')) it_inv' →
          PCSet.prime_form it' it_inv' = PCSet.prime_form it it_inv.
Proof.
  intros Hself Hok Hn Hit Hinv.
  exists (Obj (set_map (λ pc, (n - pc) mod 12) (_pcs o))). split.
  - by apply i_n_run.
  - intros it' it_inv' Hit' Hinv'. simpl in *.
    by apply (prime_form_index_inverted (_pcs o) n).
Qed.

Lemma prime_form_inversion_invariant_witness :
  ∃ o', PCSet.i_n 1%positive 5 {[1%positive := Obj {[0; 4; 7]}]}
          = (inr tt, <[1%positive := o']> {[1%positive := Obj {[0; 4; 7]}]}) ∧
        PCSet.prime_form (elements (_pcs o')) (elements (PCSet.inverted_pcs (_pcs o')))
        = PCSet.prime_form (elements ({[0; 4; 7]} : gset Z))
            (elements (PCSet.inverted_pcs {[0; 4; 7]})).
Proof.
  destruct (prime_form_inversion_invariant {[1%positive := Obj {[0; 4; 7]}]}
              1%positive (Obj {[0; 4; 7]}) 5
              (elements ({[0; 4; 7]} : gset Z))
              (elements (PCSet.inverted_pcs {[0; 4; 7]}))) as (o' & Hrun & Hpf).
  - reflexivity.
  - intros x Hx. simpl in Hx. unfold in_range.
    rewrite !elem_of_union, !elem_of_singleton in Hx. lia.
  - unfold in_range. lia.
  - apply iterates_elements.
  - apply iterates_elements.
  - exists o'. split; [exact Hrun|]. apply Hpf; apply iterates_elements.
Defined.

(** ** The prime form is a fixed point *)

Lemma list_to_set_candidate (s : gset Z) (a : Z) :
  (list_to_set (Spec.candidate s a) : gset Z) = set_map (λ pc, (pc + - a) mod 12) s.
Proof.
  apply set_eq. intros y. unfold Spec.candidate.
  rewrite elem_of_list_to_set, sorted_Permutation, list_elem_of_fmap, elem_of_map.
  by setoid_rewrite elem_of_elements.
Qed.

Lemma prime_form_inverted (s : gset Z) it it_inv it_ii :
  pcs_ok s →
  Py.iterates s it →
  Py.iterates (PCSet.inverted_pcs s) it_inv →
  Py.iterates (PCSet.inverted_pcs (PCSet.inverted_pcs s)) it_ii →
  PCSet.prime_form it_inv it_ii = PCSet.prime_form it it_inv.
Proof.
  intros Hok Hit Hinv Hii.
  by apply (prime_form_index_inverted s 0).
Qed.

(** X14: the prime form is canonical: for a set within [0,11], the prime
    form of the set made of the entries of its prime form is that prime
    form again. *)
Theorem prime_form_idempotent (self : obj) (it it_inv pf it2 inv2 : list Z) :
  Py.iterates (_pcs self) it →
  Py.iterates (PCSet.inverted_pcs (_pcs self)) it_inv →
  pcs_ok (_pcs self) →
  PCSet.prime_form it it_inv = inr pf →
  Py.iterates (list_to_set pf) it2 →
  Py.iterates (PCSet.inverted_pcs (list_to_set pf)) inv2 →
  PCSet.prime_form it2 inv2 = inr pf.
Proof.
  intros Hit Hinv Hok Hpf Hit2 Hinv2. set (s := _pcs self) in *.
  assert (s ≠ ∅) as Hne.
  { intros Hs. rewrite Hs in Hit. apply iterates_empty in Hit as ->. done. }
  destruct (prime_form_candidate s it it_inv Hit Hinv Hne) as [(a & Ha & Hc)|(a & Ha & Hc)];
    rewrite Hpf in Hc; injection Hc as ->; rewrite list_to_set_candidate in Hit2, Hinv2.
  - rewrite <- Hpf. by apply (prime_form_transposed s (- a)).
  - rewrite <- Hpf.
    rewrite <- (prime_form_inverted s it it_inv
                  (elements (PCSet.inverted_pcs (PCSet.inverted_pcs s)))); try done.
    + apply (prime_form_transposed (PCSet.inverted_pcs s) (- a)); try done.
      * apply pcs_ok_inverted.
      * apply iterates_elements.
    + apply iterates_elements.
Qed.

Lemma prime_form_idempotent_witness :
  PCSet.prime_form (elements (list_to_set [0; 3; 7] : gset Z))
    (elements (PCSet.inverted_pcs (list_to_set [0; 3; 7]))) = inr [0; 3; 7].
Proof.
  refine (prime_form_idempotent (Obj {[2; 6; 9]}) (elements ({[2; 6; 9]} : gset Z))
            (elements (PCSet.inverted_pcs {[2; 6; 9]})) [0; 3; 7] _ _ _ _ _ _ _ _).
  - apply iterates_elements.
  - apply iterates_elements.
  - intros x Hx. simpl in Hx. unfold in_range.
    rewrite !elem_of_union, !elem_of_singleton in Hx. lia.
  - by vm_compute.
  - apply iterates_elements.
  - apply iterates_elements.
Defined.

(** ** The interval-class vector on arbitrary integers *)

Lemma interval_class_bounds a b : 0 ≤ Spec.interval_class a b ≤ 6.
Proof.
  unfold Spec.interval_class.
  pose proof (Z.mod_pos_bound (b - a) 12 ltac:(lia)). lia.
Qed.

Lemma icv_loop_any (ps : list (Z * Z)) (acc : list Z) :
  length acc = 6%nat →
  Py.for_each
    (λ result '(pc_a, pc_b),
       let pc_ivl := (pc_b - pc_a) mod 12 in
       let pc_ivl := if decide (pc_ivl > 6) then (- pc_ivl) mod 12 else pc_ivl in
       Py.incr_item result (pc_ivl - 1))
    acc ps
  = inr (zip_with Z.add acc
           [Spec.class_count 1 ps; Spec.class_count 2 ps; Spec.class_count 3 ps;
            Spec.class_count 4 ps; Spec.class_count 5 ps;
            Spec.class_count 6 ps + Spec.class_count 0 ps]).
Proof.
  revert acc. induction ps as [|[a b] ps IH]; intros acc Hlen.
  - do 7 (destruct acc as [|? acc]; try done).
    unfold Spec.class_count. simpl. by rewrite !Z.add_0_r.
  - do 7 (destruct acc as [|? acc]; try done).
    cbn [Py.for_each zip_with]. rewrite fold_interval_class.
    rewrite !class_count_cons.
    pose proof (interval_class_bounds a b) as Hb.
    assert (Spec.interval_class a b = 0 ∨ Spec.interval_class a b = 1 ∨
            Spec.interval_class a b = 2 ∨ Spec.interval_class a b = 3 ∨
            Spec.interval_class a b = 4 ∨ Spec.interval_class a b = 5 ∨
            Spec.interval_class a b = 6) as Hc by lia.
    destruct Hc as [Hc|[Hc|[Hc|[Hc|[Hc|[Hc|Hc]]]]]]; rewrite Hc;
      cbn [Py.incr_item Py.getitem Py.norm_index length]; simpl;
      rewrite IH by done; simpl; f_equal; repeat (f_equal; try lia).
Qed.

Lemma class_count_total_any ps :
  Spec.class_count 0 ps + Spec.class_count 1 ps + Spec.class_count 2 ps
  + Spec.class_count 3 ps + Spec.class_count 4 ps + Spec.class_count 5 ps
  + Spec.class_count 6 ps = Z.of_nat (length ps).
Proof.
  induction ps as [|[a b] ps IH]; [done|].
  rewrite !class_count_cons. pose proof (interval_class_bounds a b).
  simpl length. repeat case_decide; lia.
Qed.

(** X15: [interval_class_vector] never raises, also on integers outside
    [0,11]: it returns six counts, entry [c - 1] for [c] from 1 to 5 being
    the number of pairs of interval class [c], and the last entry the number
    of pairs of class 6 plus, through the subscript -1, the number of pairs
    of elements congruent modulo 12; the counts add up to the number of
    pairs. *)
Theorem interval_class_vector_any_integers (it : list Z) :
  PCSet.interval_class_vector it
  = inr [Spec.class_count 1 (Py.combinations2 it);
         Spec.class_count 2 (Py.combinations2 it);
         Spec.class_count 3 (Py.combinations2 it);
         Spec.class_count 4 (Py.combinations2 it);
         Spec.class_count 5 (Py.combinations2 it);
         Spec.class_count 6 (Py.combinations2 it)
         + Spec.class_count 0 (Py.combinations2 it)] ∧
  2 * (Spec.class_count 1 (Py.combinations2 it)
       + Spec.class_count 2 (Py.combinations2 it)
       + Spec.class_count 3 (Py.combinations2 it)
       + Spec.class_count 4 (Py.combinations2 it)
       + Spec.class_count 5 (Py.combinations2 it)
       + (Spec.class_count 6 (Py.combinations2 it)
          + Spec.class_count 0 (Py.combinations2 it)))
  = Z.of_nat (length it) * (Z.of_nat (length it) - 1).
Proof.
  split.
  - unfold PCSet.interval_class_vector. rewrite icv_loop_any by done. done.
  - rewrite <- combinations2_length, <- (class_count_total_any (Py.combinations2 it)). lia.
Qed.

Lemma interval_class_vector_any_integers_witness :
  PCSet.interval_class_vector [0; 12; 5] = inr [0; 0; 0; 0; 2; 1].
Proof.
  rewrite (proj1 (interval_class_vector_any_integers [0; 12; 5])). done.
Defined.

(** ** The interval-class vector under transposition and inversion *)

Lemma combinations2_fmap (g : Z → Z) (l : list Z) :
  Py.combinations2 (g <$> l) = (λ p, (g p.1, g p.2)) <$> Py.combinations2 l.
Proof.
  induction l as [|x l IH]; [done|].
  rewrite fmap_cons. cbn [Py.combinations2].
  rewrite fmap_app, IH, <- !list_fmap_compose. done.
Qed.

Lemma class_count_fmap (g : Z → Z) c ps :
  (∀ a b, Spec.interval_class (g a) (g b) = Spec.interval_class a b) →
  Spec.class_count c ((λ p, (g p.1, g p.2)) <$> ps) = Spec.class_count c ps.
Proof.
  intros Hg. induction ps as [|[a b] ps IH]; [done|].
  rewrite fmap_cons. simpl. by rewrite !class_count_cons, Hg, IH.
Qed.

Lemma pairs_of_class_set_map (g : Z → Z) (s : gset Z) c :
  (∀ x y, x ∈ s → y ∈ s → g x = g y → x = y) →
  (∀ a b, Spec.interval_class (g a) (g b) = Spec.interval_class a b) →
  Spec.pairs_of_class (set_map g s) c = Spec.pairs_of_class s c.
Proof.
  intros Hinj Hg. unfold Spec.pairs_of_class.
  rewrite (class_count_perm c _ (Spec.unordered_pairs (g <$> elements s)))
    by (by apply unordered_pairs_perm, elements_set_map).
  rewrite <- combinations2_class_count.
  - rewrite combinations2_fmap, class_count_fmap by done.
    apply combinations2_class_count, NoDup_elements.
  - apply NoDup_fmap_2_strong; [|apply NoDup_elements].
    intros x y Hx Hy. apply Hinj; by apply elem_of_elements.
Qed.

Lemma interval_class_transposed n a b :
  Spec.interval_class ((a + n) mod 12) ((b + n) mod 12) = Spec.interval_class a b.
Proof. unfold Spec.interval_class. by rewrite transposed_residue. Qed.

Lemma interval_class_index_inverted n a b :
  Spec.interval_class ((n - a) mod 12) ((n - b) mod 12) = Spec.interval_class a b.
Proof.
  rewrite (interval_class_sym a b). unfold Spec.interval_class.
  by rewrite inverted_index_residue.
Qed.

(** X16: on an instance whose elements lie in [0,11], and for [n] in
    [0,11], the interval-class vector after [t_n(n)], and after [i_n(n)],
    equals the interval-class vector before the call. *)
Theorem interval_class_vector_invariant
    (h : store) (self : loc) (o : obj) (n : Z) (it : list Z) :
  h !! self = Some o →
  pcs_ok (_pcs o) →
  in_range n →
  Py.iterates (_pcs o) it →
  (∃ o', PCSet.t_n self n h = (inr tt, <[self := o']> h) ∧
         ∀ it', Py.iterates (_pcs o') it' →
                PCSet.interval_class_vector it' = PCSet.interval_class_vector it) ∧
  (∃ o', PCSet.i_n self n h = (inr tt, <[self := o']> h) ∧
         ∀ it', Py.iterates (_pcs o') it' →
                PCSet.interval_class_vector it' = PCSet.interval_class_vector it).
Proof.
  intros Hself Hok Hn Hit. split.
  - exists (Obj (set_map (λ pc, (pc + n) mod 12) (_pcs o))). split; [by apply t_n_run|].
    intros it' Hit'. simpl in Hit'.
    rewrite (interval_class_vector_value _ it' Hit' (pcs_ok_transposed _ n)).
    rewrite (interval_class_vector_value _ it Hit Hok).
    f_equal. apply list_fmap_ext. intros _ c _.
    apply pairs_of_class_set_map.
    + intros x y Hx Hy. apply transpose_inj; by apply Hok.
    + intros a b. apply interval_class_transposed.
  - exists (Obj (set_map (λ pc, (n - pc) mod 12) (_pcs o))). split; [by apply i_n_run|].
    intros it' Hit'. simpl in Hit'.
    rewrite (interval_class_vector_value _ it' Hit').
    + rewrite (interval_class_vector_value _ it Hit Hok).
      f_equal. apply list_fmap_ext. intros _ c _.
      apply pairs_of_class_set_map.
      * intros x y Hx Hy. apply invert_inj; by apply Hok.
      * intros a b. apply interval_class_index_inverted.
    + apply pcs_ok_set_map. intros. apply mod12_in_range.
Qed.

Lemma interval_class_vector_invariant_witness :
  ∃ o', PCSet.i_n 1%positive 5 {[1%positive := Obj {[0; 4; 7]}]}
          = (inr tt, <[1%positive := o']> {[1%positive := Obj {[0; 4; 7]}]}) ∧
        PCSet.interval_class_vector (elements (_pcs o'))
        = PCSet.interval_class_vector (elements ({[0; 4; 7]} : gset Z)).
Proof.
  destruct (interval_class_vector_invariant {[1%positive := Obj {[0; 4; 7]}]}
              1%positive (Obj {[0; 4; 7]}) 5 (elements ({[0; 4; 7]} : gset Z)))
    as (_ & o' & Hrun & Hicv).
  - reflexivity.
  - intros x Hx. simpl in Hx. unfold in_range.
    rewrite !elem_of_union, !elem_of_singleton in Hx. lia.
  - unfold in_range. lia.
  - apply iterates_elements.
  - exists o'. split; [exact Hrun|]. apply Hicv, iterates_elements.
Defined.

(** ** Text of an instance *)

(** X17: [__repr__] is [__str__]; on the empty set both raise the
    [ValueError] of [normal_order]; on a non-empty set they return
    ["PCSet: {"], the decimal numerals of the normal order separated by
    [", "], and ["}"]; for a one-element set the text is the numeral of the
    element between the braces. *)
Theorem str_of_instance (self : obj) (it : list Z) :
  Py.iterates (_pcs self) it →
  PCSet.__repr__ it = PCSet.__str__ it ∧
  (_pcs self = ∅ → ∃ msg, PCSet.__str__ it = inl (ValueError msg)) ∧
  (_pcs self ≠ ∅ →
     ∃ no, PCSet.normal_order it = inr no ∧
           PCSet.__str__ it
           = inr ("PCSet: {" +:+ Py.join ", " (Py.str <$> no) +:+ "}")) ∧
  (∀ x, _pcs self = {[x]} → PCSet.__str__ it = inr ("PCSet: {" +:+ Py.str x +:+ "}")).
Proof.
  intros Hit. split_and!.
  - done.
  - intros Hs. rewrite Hs in Hit. apply iterates_empty in Hit as ->. by eexists.
  - intros Hne. destruct (normal_order_total _ _ Hit Hne) as [no Hno].
    exists no. split; [done|]. unfold PCSet.__str__. by rewrite Hno.
  - intros x Hx.
    assert (_pcs self ≠ ∅) as Hne.
    { rewrite Hx. intros Hs. assert (x ∈ (∅ : gset Z)) as Hin; [|by apply elem_of_empty in Hin].
      rewrite <- Hs. by apply elem_of_singleton. }
    destruct (normal_order_total _ _ Hit Hne) as [no Hno].
    pose proof (normal_order_perm _ _ _ Hit Hno) as Hperm.
    rewrite Hx, elements_singleton in Hperm.
    apply Permutation_singleton_r in Hperm as ->.
    unfold PCSet.__str__. rewrite Hno. done.
Qed.

Lemma str_of_instance_witness :
  PCSet.__str__ (elements ({[11]} : gset Z)) = inr "PCSet: {11}".
Proof.
  refine (proj2 (proj2 (proj2 (str_of_instance (Obj {[11]}) (elements ({[11]} : gset Z)) _)))
            11 eq_refl).
  apply iterates_elements.
Defined.

(** ** The text identifies the set *)

Lemma string_app_assoc (s1 s2 s3 : string) : (s1 +:+ s2) +:+ s3 = s1 +:+ (s2 +:+ s3).
Proof.
  induction s1 as [|c s1 IH]; [done|].
  change (String c ((s1 +:+ s2) +:+ s3) = String c (s1 +:+ (s2 +:+ s3))).
  by f_equal.
Qed.

(** A numeral of [0..11] followed by a brace or a comma can be read back. *)
Lemma numeral_then_separator (x y : Z) (c1 c2 : ascii) (r1 r2 : string) :
  in_range x → in_range y →
  c1 = "}"%char ∨ c1 = ","%char →
  c2 = "}"%char ∨ c2 = ","%char →
  Py.str x +:+ String c1 r1 = Py.str y +:+ String c2 r2 →
  x = y ∧ String c1 r1 = String c2 r2.
Proof.
  unfold in_range. intros Hx Hy H1 H2 Heq.
  assert (x = 0 ∨ x = 1 ∨ x = 2 ∨ x = 3 ∨ x = 4 ∨ x = 5 ∨ x = 6 ∨ x = 7 ∨
          x = 8 ∨ x = 9 ∨ x = 10 ∨ x = 11) as Hxc by lia.
  assert (y = 0 ∨ y = 1 ∨ y = 2 ∨ y = 3 ∨ y = 4 ∨ y = 5 ∨ y = 6 ∨ y = 7 ∨
          y = 8 ∨ y = 9 ∨ y = 10 ∨ y = 11) as Hyc by lia.
  clear Hx Hy.
  destruct_or!; subst; vm_compute in Heq; try (split; congruence); congruence.
Qed.

Lemma numeral_not_brace (y : Z) (r : string) :
  in_range y → "}" ≠ Py.str y +:+ r.
Proof.
  unfold in_range. intros Hy Heq.
  assert (y = 0 ∨ y = 1 ∨ y = 2 ∨ y = 3 ∨ y = 4 ∨ y = 5 ∨ y = 6 ∨ y = 7 ∨
          y = 8 ∨ y = 9 ∨ y = 10 ∨ y = 11) as Hyc by lia.
  clear Hy. destruct_or!; subst; vm_compute in Heq; congruence.
Qed.

Lemma text_cons (x : Z) (l : list Z) :
  Py.join ", " (Py.str <$> x :: l) +:+ "}"
  = Py.str x +:+ match l with
                 | [] => "}"
                 | _ => String "," (String " " (Py.join ", " (Py.str <$> l) +:+ "}"))
                 end.
Proof.
  destruct l as [|y l]; [done|].
  unfold Py.join. rewrite !fmap_cons. cbn [String.concat].
  by rewrite string_app_assoc.
Qed.

Lemma text_inj (l1 l2 : list Z) :
  Forall in_range l1 → Forall in_range l2 →
  Py.join ", " (Py.str <$> l1) +:+ "}" = Py.join ", " (Py.str <$> l2) +:+ "}" →
  l1 = l2.
Proof.
  intros H1. revert l2. induction H1 as [|x l1 Hx H1 IH]; intros l2 H2 Heq.
  - destruct H2 as [|y l2 Hy H2]; [done|].
    rewrite text_cons in Heq. by apply numeral_not_brace in Heq.
  - destruct H2 as [|y l2 Hy H2].
    + rewrite text_cons in Heq. symmetry in Heq. by apply numeral_not_brace in Heq.
    + rewrite !text_cons in Heq.
      destruct l1 as [|x' l1]; destruct l2 as [|y' l2].
      * apply numeral_then_separator in Heq as [-> _]; auto.
      * apply numeral_then_separator in Heq as [_ Heq]; auto. discriminate.
      * apply numeral_then_separator in Heq as [_ Heq]; auto. discriminate.
      * apply numeral_then_separator in Heq as [-> Heq]; auto.
        injection Heq as Heq. f_equal. by apply IH.
Qed.

(** X18: the text identifies the set: two instances whose elements lie in
    [0,11] and whose [__str__] return the same text have the same
    elements. *)
Theorem str_identifies_set (s1 s2 : gset Z) (it1 it2 : list Z) (text : string) :
  Py.iterates s1 it1 →
  Py.iterates s2 it2 →
  pcs_ok s1 →
  pcs_ok s2 →
  PCSet.__str__ it1 = inr text →
  PCSet.__str__ it2 = inr text →
  s1 = s2.
Proof.
  intros Hit1 Hit2 Hok1 Hok2 Hstr1 Hstr2. unfold PCSet.__str__ in *.
  destruct (PCSet.normal_order it1) as [?|no1] eqn:Hno1; [done|].
  destruct (PCSet.normal_order it2) as [?|no2] eqn:Hno2; [done|].
  cbn [rbind] in *. rewrite <- Hstr2 in Hstr1. clear Hstr2.
  injection Hstr1 as Heq.
  pose proof (normal_order_perm _ _ _ Hit1 Hno1) as Hp1.
  pose proof (normal_order_perm _ _ _ Hit2 Hno2) as Hp2.
  apply text_inj in Heq.
  - apply set_eq. intros x.
    by rewrite <- (elem_of_elements s1), <- (elem_of_elements s2), <- Hp1, <- Hp2, Heq.
  - rewrite Hp1. apply Forall_forall. intros x Hx. by apply Hok1, elem_of_elements.
  - rewrite Hp2. apply Forall_forall. intros x Hx. by apply Hok2, elem_of_elements.
Qed.

Lemma str_identifies_set_witness :
  (list_to_set [4; 0; 7] : gset Z) = {[0; 4; 7]}.
Proof.
  refine (str_identifies_set (list_to_set [4; 0; 7]) {[0; 4; 7]}
            (elements (list_to_set [4; 0; 7] : gset Z)) (elements ({[0; 4; 7]} : gset Z))
            "PCSet: {0, 4, 7}" _ _ _ _ _ _).
  - apply iterates_elements.
  - apply iterates_elements.
  - apply pcs_ok_list_to_set. repeat constructor; unfold in_range; lia.
  - intros x Hx. unfold in_range.
    rewrite !elem_of_union, !elem_of_singleton in Hx. lia.
  - by vm_compute.
  - by vm_compute.
Defined.

(** ** Laws of the set methods *)

(** X19: [union] and [intersection] do not depend on the order of their
    operands; [a.union(a)] and [a.intersection(a)] are copies of [a] and
    [a.difference(a)] is empty; the difference and the intersection of [a]
    with [b] are disjoint and their union has the elements of [a]. *)
Theorem set_algebra_laws (h : store) (a b : loc) (A B : obj) :
  h !! a = Some A →
  h !! b = Some B →
  PCSet.union a b h = PCSet.union b a h ∧
  PCSet.intersection a b h = PCSet.intersection b a h ∧
  (∃ r, h !! r = None ∧
        PCSet.union a a h = (inr r, <[r := A]> h) ∧
        PCSet.intersection a a h = (inr r, <[r := A]> h) ∧
        PCSet.difference a a h = (inr r, <[r := Obj ∅]> h)) ∧
  ((let* d := PCSet.difference a b in
    let* i := PCSet.intersection a b in
    let* e := PCSet.intersection d i in
    let* u := PCSet.union d i in
    let* x := getattr_pcs e in
    let* y := getattr_pcs u in ret (x, y))%M h).1 = inr (∅, _pcs A).
Proof.
  intros Ha Hb. split_and!.
  - rewrite (union_run h a b A B), (union_run h b a B A) by done.
    do 3 f_equal. apply set_eq. intros x. rewrite !elem_of_union. tauto.
  - rewrite (intersection_run h a b A B), (intersection_run h b a B A) by done.
    do 3 f_equal. apply set_eq. intros x. rewrite !elem_of_intersection. tauto.
  - exists (fresh (dom h)). split_and!.
    + apply fresh_lookup.
    + rewrite (union_run h a a A A) by done. do 2 f_equal.
      rewrite <- (obj_eta A) at 3. f_equal.
      apply set_eq. intros x. rewrite elem_of_union. tauto.
    + rewrite (intersection_run h a a A A) by done. do 2 f_equal.
      rewrite <- (obj_eta A) at 3. f_equal.
      apply set_eq. intros x. rewrite elem_of_intersection. tauto.
    + rewrite (difference_run h a a A A) by done. do 3 f_equal.
      apply set_eq. intros x. rewrite elem_of_difference, elem_of_empty. tauto.
  - pose proof (fresh_lookup h) as Hf0. set (r0 := fresh (dom h)) in *.
    unfold bind at 1. rewrite (difference_run h a b A B) by done. fold r0.
    set (h1 := <[r0 := Obj (_pcs A ∖ _pcs B)]> h).
    assert (h1 !! a = Some A) as Ha1 by (unfold h1; rewrite lookup_insert_ne; congruence).
    assert (h1 !! b = Some B) as Hb1 by (unfold h1; rewrite lookup_insert_ne; congruence).
    assert (h1 !! r0 = Some (Obj (_pcs A ∖ _pcs B))) as Hd1 by apply lookup_insert_eq.
    pose proof (fresh_lookup h1) as Hf1. set (r1 := fresh (dom h1)) in *.
    unfold bind at 1. rewrite (intersection_run h1 a b A B) by done. fold r1.
    set (h2 := <[r1 := Obj (_pcs A ∩ _pcs B)]> h1).
    assert (h2 !! r0 = Some (Obj (_pcs A ∖ _pcs B))) as Hd2
      by (unfold h2; rewrite lookup_insert_ne; congruence).
    assert (h2 !! r1 = Some (Obj (_pcs A ∩ _pcs B))) as Hi2 by apply lookup_insert_eq.
    pose proof (fresh_lookup h2) as Hf2. set (r2 := fresh (dom h2)) in *.
    unfold bind at 1. rewrite (intersection_run h2 r0 r1 _ _ Hd2 Hi2). fold r2.
    set (h3 := <[r2 := _]> h2).
    assert (h3 !! r0 = Some (Obj (_pcs A ∖ _pcs B))) as Hd3
      by (unfold h3; rewrite lookup_insert_ne; congruence).
    assert (h3 !! r1 = Some (Obj (_pcs A ∩ _pcs B))) as Hi3
      by (unfold h3; rewrite lookup_insert_ne; congruence).
    pose proof (fresh_lookup h3) as Hf3. set (r3 := fresh (dom h3)) in *.
    unfold bind at 1. rewrite (union_run h3 r0 r1 _ _ Hd3 Hi3). fold r3.
    assert (r2 ≠ r3).
    { intros Heq. rewrite <- Heq in Hf3. unfold h3 in Hf3.
      by rewrite lookup_insert_eq in Hf3. }
    run. rewrite lookup_insert_ne by done. unfold h3 at 1.
    rewrite lookup_insert_eq. simpl. rewrite lookup_insert_eq. simpl.
    do 2 f_equal.
    + apply set_eq. intros x.
      rewrite elem_of_intersection, elem_of_difference, elem_of_intersection, elem_of_empty.
      tauto.
    + apply set_eq. intros x.
      rewrite elem_of_union, elem_of_difference, elem_of_intersection.
      destruct (decide (x ∈ _pcs B)); tauto.
Qed.

Lemma set_algebra_laws_witness :
  PCSet.union 1%positive 2%positive {[1%positive := Obj {[0; 4]}; 2%positive := Obj {[4; 7]}]}
  = PCSet.union 2%positive 1%positive {[1%positive := Obj {[0; 4]}; 2%positive := Obj {[4; 7]}]}.
Proof.
  refine (proj1 (set_algebra_laws _ 1%positive 2%positive (Obj {[0; 4]}) (Obj {[4; 7]}) _ _));
    reflexivity.
Defined.

(** ** The prime form keeps the interval classes *)

Lemma interval_class_negated a b :
  Spec.interval_class ((- a) mod 12) ((- b) mod 12) = Spec.interval_class a b.
Proof. exact (interval_class_index_inverted 0 a b). Qed.

Lemma pairs_of_class_inverted (s : gset Z) c :
  pcs_ok s → Spec.pairs_of_class (PCSet.inverted_pcs s) c = Spec.pairs_of_class s c.
Proof.
  intros Hok. apply pairs_of_class_set_map.
  - intros x y Hx Hy. apply negate_inj; by apply Hok.
  - apply interval_class_negated.
Qed.

Lemma pairs_of_class_candidate (s : gset Z) a c :
  pcs_ok s →
  Spec.pairs_of_class (list_to_set (Spec.candidate s a)) c = Spec.pairs_of_class s c.
Proof.
  intros Hok. rewrite list_to_set_candidate. apply pairs_of_class_set_map.
  - intros x y Hx Hy. apply transpose_inj; by apply Hok.
  - intros x y. apply interval_class_transposed.
Qed.

(** X20: for a set within [0,11], the interval-class vector of the set made
    of the entries of its prime form is the interval-class vector of the
    set. *)
Theorem prime_form_keeps_interval_classes (self : obj) (it it_inv pf it2 : list Z) :
  Py.iterates (_pcs self) it →
  Py.iterates (PCSet.inverted_pcs (_pcs self)) it_inv →
  pcs_ok (_pcs self) →
  PCSet.prime_form it it_inv = inr pf →
  Py.iterates (list_to_set pf) it2 →
  PCSet.interval_class_vector it2 = PCSet.interval_class_vector it.
Proof.
  intros Hit Hinv Hok Hpf Hit2. set (s := _pcs self) in *.
  assert (s ≠ ∅) as Hne.
  { intros Hs. rewrite Hs in Hit. apply iterates_empty in Hit as ->. done. }
  rewrite (interval_class_vector_value s it Hit Hok).
  destruct (prime_form_candidate s it it_inv Hit Hinv Hne) as [(a & Ha & Hc)|(a & Ha & Hc)];
    rewrite Hpf in Hc; injection Hc as ->.
  - rewrite (interval_class_vector_value _ it2 Hit2).
    + f_equal. apply list_fmap_ext. intros _ c _. by apply pairs_of_class_candidate.
    + rewrite list_to_set_candidate. apply pcs_ok_transposed.
  - rewrite (interval_class_vector_value _ it2 Hit2).
    + f_equal. apply list_fmap_ext. intros _ c _.
      rewrite pairs_of_class_candidate by apply pcs_ok_inverted.
      by apply pairs_of_class_inverted.
    + rewrite list_to_set_candidate. apply pcs_ok_transposed.
Qed.

Lemma prime_form_keeps_interval_classes_witness :
  PCSet.interval_class_vector (elements (list_to_set [0; 3; 7] : gset Z))
  = PCSet.interval_class_vector (elements ({[2; 6; 9]} : gset Z)).
Proof.
  refine (prime_form_keeps_interval_classes (Obj {[2; 6; 9]}) (elements ({[2; 6; 9]} : gset Z))
            (elements (PCSet.inverted_pcs {[2; 6; 9]})) [0; 3; 7] _ _ _ _ _ _).
  - apply iterates_elements.
  - apply iterates_elements.
  - intros x Hx. simpl in Hx. unfold in_range.
    rewrite !elem_of_union, !elem_of_singleton in Hx. lia.
  - by vm_compute.
  - apply iterates_elements.
Defined.

(** ** Building an instance from a descriptor *)

(** X21: for a set within [0,11], a construction from the entries of its
    normal order returns a fresh instance with exactly the elements of the
    set, and the entries of its prime form are valid arguments too: a
    construction from them returns a fresh instance holding those entries. *)
Theorem construct_from_descriptor (h : store) (self : obj) (it it_inv no pf : list Z) :
  Py.iterates (_pcs self) it →
  Py.iterates (PCSet.inverted_pcs (_pcs self)) it_inv →
  pcs_ok (_pcs self) →
  PCSet.normal_order it = inr no →
  PCSet.prime_form it it_inv = inr pf →
  ∃ r, h !! r = None ∧
       PCSet.new no h = (inr r, <[r := self]> h) ∧
       PCSet.new pf h = (inr r, <[r := Obj (list_to_set pf)]> h).
Proof.
  intros Hit Hinv Hok Hno Hpf. set (s := _pcs self) in *.
  assert (s ≠ ∅) as Hne.
  { intros Hs. rewrite Hs in Hit. apply iterates_empty in Hit as ->. done. }
  pose proof (normal_order_perm _ _ _ Hit Hno) as Hperm.
  exists (fresh (dom h)). split_and!.
  - apply fresh_lookup.
  - rewrite new_in.
    + do 2 f_equal. rewrite <- (obj_eta self). f_equal. fold s.
      apply set_eq. intros x. by rewrite elem_of_list_to_set, Hperm, elem_of_elements.
    + rewrite Hperm. apply Forall_forall. intros x Hx. by apply Hok, elem_of_elements.
  - apply new_in.
    destruct (prime_form_candidate s it it_inv Hit Hinv Hne)
      as [(a & Ha & Hc)|(a & Ha & Hc)]; rewrite Hpf in Hc; injection Hc as ->.
    + by destruct (candidate_shape s a Hok Ha) as (_ & _ & ? & _).
    + by destruct (candidate_shape _ a (pcs_ok_inverted s) Ha) as (_ & _ & ? & _).
Qed.

Lemma construct_from_descriptor_witness :
  ∃ r, (∅ : store) !! r = None ∧
       PCSet.new [4; 6; 9; 10] ∅ = (inr r, <[r := Obj {[10; 4; 9; 6]}]> ∅).
Proof.
  destruct (construct_from_descriptor ∅ (Obj {[10; 4; 9; 6]})
              (elements ({[10; 4; 9; 6]} : gset Z))
              (elements (PCSet.inverted_pcs {[10; 4; 9; 6]}))
              [4; 6; 9; 10] [0; 1; 4; 6]) as (r & Hr & Hnew & _).
  - apply iterates_elements.
  - apply iterates_elements.
  - intros x Hx. simpl in Hx. unfold in_range.
    rewrite !elem_of_union, !elem_of_singleton in Hx. lia.
  - by vm_compute.
  - by vm_compute.
  - by exists r.
Defined.
